(** * Transcript lifecycle and time synchronisation of the audio front end

    A shallow embedding of the parts of the front end that carry the
    transcript logic:

    - [TranscriptView.tsx]: the active-word computation and what the view
      renders for each status;
    - the player page: [loadAudioFile], [loadTranscript], [startPolling],
      [handleRetryTranscription], the cleanup effect and what the page
      returns;
    - the search page: [performSearch];
    - the library page: [handleFilesSelected] and its timeouts.

    JavaScript numbers are IEEE 754 binary64 values and are modelled by
    Rocq's primitive floats; array indices and lengths are integers and are
    modelled by [nat] and [Z].  Strings are modelled by byte strings. *)

From Stdlib Require Import ZArith Lia Bool List Ascii String.
From Stdlib Require Import Floats.
From stdpp Require Import base list gmap gmultiset pretty.

Import ListNotations.
Local Open Scope Z_scope.

(** ** Numbers *)

(** [x >= y] and [x < y] of JavaScript on numbers: both are false as soon as
    one side is NaN. *)
Definition num_ge (x y : float) : bool := PrimFloat.leb y x.
Definition num_lt (x y : float) : bool := PrimFloat.ltb x y.

(** The position of a float that is not NaN on the extended real line, as a
    triple compared lexicographically: the class (infinities, negative,
    zero, positive), then exponent and mantissa, both negated for negative
    numbers. *)
Definition rank (f : spec_float) : option (Z * Z * Z) :=
  match f with
  | S754_nan => None
  | S754_infinity true => Some (-2, 0, 0)
  | S754_infinity false => Some (2, 0, 0)
  | S754_zero _ => Some (0, 0, 0)
  | S754_finite true m e => Some (-1, - e, Z.neg m)
  | S754_finite false m e => Some (1, e, Z.pos m)
  end.

Definition lexlt (a b : Z * Z * Z) : Prop :=
  let '(a1, a2, a3) := a in
  let '(b1, b2, b3) := b in
  a1 < b1 \/ (a1 = b1 /\ (a2 < b2 \/ (a2 = b2 /\ a3 < b3))).

Definition lexle (a b : Z * Z * Z) : Prop :=
  let '(a1, a2, a3) := a in
  let '(b1, b2, b3) := b in
  a1 < b1 \/ (a1 = b1 /\ (a2 < b2 \/ (a2 = b2 /\ a3 <= b3))).

Definition rk (x : float) : option (Z * Z * Z) := rank (Prim2SF x).

(** A number that is not NaN. *)
Definition is_num (x : float) : Prop := PrimFloat.leb x x = true.

(** ** Data model ([types/audio]) *)

Inductive Status : Type := uploaded | processing | completed | failed.

Inductive Confidence : Type := medium | high.

Record TranscriptWord : Type := {
  word : string;
  start : float;
  end_ : float;
  deceptionConfidence : option Confidence
}.

Record Transcript : Type := {
  id : string;
  text : string;
  words : list TranscriptWord;
  createdAt : string
}.

Record TranscriptResponse : Type := {
  audio_id : string;
  status : Status;
  transcript : option Transcript
}.

#[global] Instance Status_eq_dec : EqDecision Status.
Proof. solve_decision. Defined.

(** ** Time index ([TranscriptView.tsx], lines 25-27) *)

(** The callback handed to [findIndex].  It reads [words[i + 1].start];
    reading a property of [undefined] throws, which is [None] here. *)
Definition isActive (ws : list TranscriptWord) (currentTime : float)
    (w : TranscriptWord) (i : nat) : option bool :=
  if num_ge currentTime (start w) then
    if Z.of_nat i =? Z.of_nat (length ws) - 1 then Some true
    else
      match ws !! (i + 1)%nat with
      | Some w' => Some (num_lt currentTime (start w'))
      | None => None
      end
  else Some false.

(** [Array.prototype.findIndex]: the first index at which the callback is
    true, [-1] when there is none; an exception of the callback escapes. *)
Fixpoint findIndex_from {A : Type} (p : A -> nat -> option bool)
    (l : list A) (i : nat) : option Z :=
  match l with
  | [] => Some (-1)
  | x :: l' =>
      match p x i with
      | None => None
      | Some true => Some (Z.of_nat i)
      | Some false => findIndex_from p l' (S i)
      end
  end.

Definition findIndex {A : Type} (p : A -> nat -> option bool) (l : list A)
    : option Z :=
  findIndex_from p l 0.

Definition activeWordIndex (ws : list TranscriptWord) (currentTime : float)
    : option Z :=
  findIndex (isActive ws currentTime) ws.

(** Tokens in non-decreasing order of [start]. *)
Definition sorted_by_start (ws : list TranscriptWord) : Prop :=
  forall i a b, ws !! i = Some a -> ws !! (S i) = Some b ->
    PrimFloat.leb (start a) (start b) = true.

(** The window contract of the locator at index [i]. *)
Definition window_contract (ws : list TranscriptWord) (t : float) (i : nat)
    : Prop :=
  exists w, ws !! i = Some w /\ num_ge t (start w) = true /\
    (S i = length ws \/
     exists w', ws !! (S i) = Some w' /\ num_lt t (start w') = true).

(** Executable check of [sorted_by_start]. *)
Fixpoint is_sorted_by_start (ws : list TranscriptWord) : bool :=
  match ws with
  | [] => true
  | a :: ws' =>
      match ws' with
      | [] => true
      | b :: _ => PrimFloat.leb (start a) (start b) && is_sorted_by_start ws'
      end
  end.

(** A word with the given text that starts at [s] and lasts one second. *)
Definition mkWord (txt : string) (s : float) : TranscriptWord :=
  {| word := txt; start := s; end_ := PrimFloat.add s 1;
     deceptionConfidence := None |}.

(** An audio file of the library ([AudioFile] of [types/audio]). *)
Module AudioFile.
Record t : Type := {
  id : string;
  title : string;
  filename : string;
  url : string;
  duration : option float;
  uploadedAt : Z;
  size : float;
  status : option Status
}.
End AudioFile.

(** ** Strings *)

(** [toLowerCase] on byte strings: the letters A-Z go to a-z, every other
    byte is kept. *)
Definition toLowerAscii (c : ascii) : ascii :=
  let n := nat_of_ascii c in
  if (65 <=? n)%nat && (n <=? 90)%nat then ascii_of_nat (n + 32) else c.

Fixpoint toLowerCase (s : string) : string :=
  match s with
  | EmptyString => EmptyString
  | String c s' => String (toLowerAscii c) (toLowerCase s')
  end.

(** [s.includes(q)]: [q] occurs in [s] as a substring. *)
Fixpoint includes (s q : string) : bool :=
  String.prefix q s ||
  match s with
  | EmptyString => false
  | String _ s' => includes s' q
  end.

(** [l.join(sep)]. *)
Definition join (sep : string) (l : list string) : string :=
  String.concat sep l.

(** White space removed by [trim], among the bytes: tab, line feed,
    vertical tab, form feed, carriage return and space. *)
Definition isWhiteSpace (c : ascii) : bool :=
  let n := nat_of_ascii c in
  ((9 <=? n)%nat && (n <=? 13)%nat) || (n =? 32)%nat.

(** [!s.trim()]: nothing is left of [s] once trimmed. *)
Fixpoint trim_is_empty (s : string) : bool :=
  match s with
  | EmptyString => true
  | String c s' => isWhiteSpace c && trim_is_empty s'
  end.

(** ** Search ([performSearch] of the search page) *)

(** How a piece of code ends: with a value, with a [TypeError] from a read
    on [undefined], or without an answer when the fuel of the model is
    used up. *)
Inductive Run (A : Type) : Type :=
  | Returns (a : A)
  | Throws
  | OutOfFuel.
Arguments Returns {A} a.
Arguments Throws {A}.
Arguments OutOfFuel {A}.

Module SearchPage.

Record Match : Type := { text : string; startTime : float }.

Record SearchResult : Type := {
  audioId : string;
  audioTitle : string;
  audioUrl : string;
  audioDuration : option float;
  audioSize : float;
  matches : list Match
}.

(** [Math.max(0, i - 5)] and [Math.min(words.length, i + 6)]. *)
Definition windowLo (i : nat) : nat := Z.to_nat (Z.max 0 (Z.of_nat i - 5)).
Definition windowHi (len i : nat) : nat :=
  Z.to_nat (Z.min (Z.of_nat len) (Z.of_nat i + 6)).

(** The inner loop, lines 73-76: [words[j].word] is pushed for [j] from
    [windowLo i] up to [windowHi] excluded; [None] when a read fails. *)
Definition contextWindow (ws : list TranscriptWord) (i : nat)
    : option (list string) :=
  mapM (fun j => word <$> ws !! j)
    (seq (windowLo i) (windowHi (length ws) i - windowLo i)).

(** The body of the outer loop, lines 73-86, on the loop variable and
    the matches found so far. *)
Definition scanBody (ws : list TranscriptWord) (query : string) (i : nat)
    (found : list Match) : option (nat * list Match) :=
  match contextWindow ws i with
  | None => None
  | Some contextWindow_ =>
      let contextText := join " " contextWindow_ in
      if includes (toLowerCase contextText) query then
        match ws !! windowLo i with
        | None => None
        | Some startWord =>
            Some ((i + 5)%nat,
                  found ++ [{| text := contextText;
                               startTime := start startWord |}])
        end
      else Some (i, found)
  end.

(** The outer loop, line 72: [for (let i = ...; i < words.length; i++)]. *)
Fixpoint scanLoop (fuel : nat) (ws : list TranscriptWord) (query : string)
    (i : nat) (found : list Match) : Run (list Match) :=
  if (length ws <=? i)%nat then Returns found
  else
    match fuel with
    | O => OutOfFuel
    | S fuel' =>
        match scanBody ws query i found with
        | None => Throws
        | Some (i', found') => scanLoop fuel' ws query (i' + 1)%nat found'
        end
    end.

(** Lines 69-87: the matches of one transcript. *)
Definition searchWords (ws : list TranscriptWord) (searchQuery : string)
    : Run (list Match) :=
  let query := toLowerCase searchQuery in
  scanLoop (length ws) ws query 0 [].

(** The values that the loop variable takes when the body runs, in
    order. *)
Fixpoint testedFrom (fuel : nat) (ws : list TranscriptWord) (query : string)
    (i : nat) : list nat :=
  if (length ws <=? i)%nat then []
  else
    match fuel with
    | O => []
    | S fuel' =>
        i :: match scanBody ws query i [] with
             | None => []
             | Some (i', _) => testedFrom fuel' ws query (i' + 1)%nat
             end
    end.

Definition tested (ws : list TranscriptWord) (searchQuery : string)
    : list nat :=
  testedFrom (length ws) ws (toLowerCase searchQuery) 0.

(** The test of line 79 at index [i]. *)
Definition windowMatches (ws : list TranscriptWord) (searchQuery : string)
    (i : nat) : bool :=
  match contextWindow ws i with
  | None => false
  | Some contextWindow_ =>
      includes (toLowerCase (join " " contextWindow_))
        (toLowerCase searchQuery)
  end.

(** Lines 63-103 for one file; [response] is what [getTranscript]
    resolved to, [None] when it rejected.  The result is what is pushed
    on [results], if anything. *)
Definition searchFile (file : AudioFile.t) (response : option TranscriptResponse)
    (searchQuery : string) : option SearchResult :=
  match response with
  | None => None
  | Some response =>
      match status response, transcript response with
      | completed, Some tr =>
          match searchWords (words tr) searchQuery with
          | Returns found =>
              if (0 <? length found)%nat then
                Some {| audioId := AudioFile.id file;
                        audioTitle := AudioFile.title file;
                        audioUrl := AudioFile.url file;
                        audioDuration := AudioFile.duration file;
                        audioSize := AudioFile.size file;
                        matches := take 3 found |}
              else None
          | Throws | OutOfFuel => None
          end
      | _, _ => None
      end
  end.

(** [performSearch], lines 54-107: [None] when the query is blank and
    nothing is done, else the new value of [searchResults]. *)
Definition performSearch
    (getTranscript : string -> option TranscriptResponse)
    (audioFiles : list AudioFile.t) (searchQuery : string)
    : option (list SearchResult) :=
  if trim_is_empty searchQuery then None
  else
    let completedFiles :=
      filter (fun f => AudioFile.status f = Some completed) audioFiles in
    Some (omap (fun file =>
                  searchFile file (getTranscript (AudioFile.id file))
                    searchQuery)
            completedFiles).

End SearchPage.

(** Twelve tokens "a" to "l", one second apart from 0. *)
Definition letters : list TranscriptWord :=
  [ mkWord "a" 0; mkWord "b" 1; mkWord "c" 2; mkWord "d" 3;
    mkWord "e" 4; mkWord "f" 5; mkWord "g" 6; mkWord "h" 7;
    mkWord "i" 8; mkWord "j" 9; mkWord "k" 10; mkWord "l" 11 ].

(** The context window of token [i] in the words of the specification:
    the tokens from index [max(0, i - 5)] to [min(len - 1, i + 5)], both
    included. *)
Definition spec_window (ws : list TranscriptWord) (i : nat)
    : list TranscriptWord :=
  let lo := Z.to_nat (Z.max 0 (Z.of_nat i - 5)) in
  let hi := Z.to_nat (Z.min (Z.of_nat (length ws) - 1) (Z.of_nat i + 5)) in
  take (hi + 1 - lo)%nat (drop lo ws).

(** What the specification says of a match recorded at token [i]. *)
Definition spec_match (ws : list TranscriptWord) (searchQuery : string)
    (i : nat) (m : SearchPage.Match) : Prop :=
  (i < length ws)%nat /\
  SearchPage.text m = join " " (word <$> spec_window ws i) /\
  (length (spec_window ws i) <= 11)%nat /\
  includes (toLowerCase (SearchPage.text m)) (toLowerCase searchQuery) = true /\
  exists w, ws !! Z.to_nat (Z.max 0 (Z.of_nat i - 5)) = Some w /\
    SearchPage.startTime m = start w.

(** One completed audio file whose transcript is [letters], and the
    transcript service that knows only this file. *)
Definition lettersFile : AudioFile.t :=
  {| AudioFile.id := "audio-1"; AudioFile.title := "alphabet";
     AudioFile.filename := "alphabet.mp3"; AudioFile.url := "/alphabet.mp3";
     AudioFile.duration := Some 12%float; AudioFile.uploadedAt := 0;
     AudioFile.size := 1024%float; AudioFile.status := Some completed |}.

Definition lettersTranscript : Transcript :=
  {| id := "t-1"; text := "a b c d e f g h i j k l"; words := letters;
     createdAt := "2024-01-01" |}.

Definition lettersService (audioId : string) : option TranscriptResponse :=
  if String.eqb audioId "audio-1" then
    Some {| audio_id := audioId; status := completed;
            transcript := Some lettersTranscript |}
  else None.

(** The match that the body of the loop records at index [i], if any. *)
Definition recorded (ws : list TranscriptWord) (query : string) (i : nat)
    : option SearchPage.Match :=
  match SearchPage.scanBody ws query i [] with
  | Some (_, [m]) => Some m
  | _ => None
  end.

(** ** The transcript view ([TranscriptView.tsx], lines 53-141) *)

Module TranscriptView.

Record Props : Type := {
  words : list TranscriptWord;
  currentTime : float;
  status : Status;
  onRetry : bool   (* whether a retry handler is passed *)
}.

(** What the component returns. *)
Inductive View : Type :=
  | Transcribing                  (* "Transcribing audio" *)
  | TranscriptionFailed (retryButton : bool)
  | Preparing                     (* "Preparing transcript" *)
  | TranscriptText (shown : list TranscriptWord) (active : Z).

(** The component: the active index is computed first (a throw there is
    [None]), then the status is looked at. *)
Definition render (p : Props) : option View :=
  match activeWordIndex (words p) (currentTime p) with
  | None => None
  | Some activeWordIndex_ =>
      Some
        (if bool_decide (status p = processing) then Transcribing
         else if bool_decide (status p = failed) then
           TranscriptionFailed (onRetry p)
         else if bool_decide (status p = uploaded)
                 || (length (words p) =? 0)%nat then Preparing
         else TranscriptText (words p) activeWordIndex_)
  end.

(** The tokens that are on the screen. *)
Definition shownWords (p : Props) : list TranscriptWord :=
  match render p with
  | Some (TranscriptText shown _) => shown
  | _ => []
  end.

(** Whether the Retry button is on the screen. *)
Definition retryShown (p : Props) : bool :=
  match render p with
  | Some (TranscriptionFailed true) => true
  | _ => false
  end.

End TranscriptView.

(** ** The player page: loading, polling and retry *)

Module PlayerPage.

(** The handle that [setInterval] returns: a positive integer, so it is
    never falsy. *)
Definition TimerId : Type := positive.

Record StoredAudioFile : Type := {
  id : string;
  title : string;
  url : string;
  duration : option float;
  size : float
}.

(** The state of the component: the values of [useAuth] at the last
    render, the state variables and the ref.  And what the runtime holds
    around it: whether the component is mounted, the intervals that are
    set and not cleared, the handle that the next [setInterval] returns,
    the poll requests that are sent and not yet answered, each under the
    handle of the interval whose tick sent it, and the calls of
    [clearInterval] made so far, the oldest first. *)
Record State : Type := {
  isAuthenticated : bool;
  loading : bool;
  audio : option StoredAudioFile;
  loadingAudio : bool;
  error : option string;
  transcriptWords : list TranscriptWord;
  transcriptStatus : Status;
  currentTime : float;
  pollIntervalRef : option TimerId;
  mounted : bool;
  intervals : gset TimerId;
  nextInterval : TimerId;
  inFlight : gmultiset TimerId;
  clearIntervalCalls : list TimerId
}.

(** The page as it is mounted for a user who is signed in and comes from
    the library: the state variables at their initial values, lines
    121-129.  A page that is opened while the session is still checked
    starts with the event [AuthChanged false true]. *)
Definition init : State :=
  {| isAuthenticated := true; loading := false;
     audio := None; loadingAudio := true; error := None;
     transcriptWords := []; transcriptStatus := uploaded;
     currentTime := 0; pollIntervalRef := None; mounted := true;
     intervals := ∅; nextInterval := 1%positive; inFlight := ∅;
     clearIntervalCalls := [] |}.

Definition setAuth (isAuthenticated_ loading_ : bool) (s : State) : State :=
  {| isAuthenticated := isAuthenticated_; loading := loading_;
     audio := audio s; loadingAudio := loadingAudio s; error := error s;
     transcriptWords := transcriptWords s;
     transcriptStatus := transcriptStatus s; currentTime := currentTime s;
     pollIntervalRef := pollIntervalRef s; mounted := mounted s;
     intervals := intervals s; nextInterval := nextInterval s;
     inFlight := inFlight s; clearIntervalCalls := clearIntervalCalls s |}.

Definition setAudio (a : StoredAudioFile) (s : State) : State :=
  {| isAuthenticated := isAuthenticated s; loading := loading s;
     audio := Some a; loadingAudio := loadingAudio s; error := error s;
     transcriptWords := transcriptWords s;
     transcriptStatus := transcriptStatus s; currentTime := currentTime s;
     pollIntervalRef := pollIntervalRef s; mounted := mounted s;
     intervals := intervals s; nextInterval := nextInterval s;
     inFlight := inFlight s; clearIntervalCalls := clearIntervalCalls s |}.

Definition setLoadingAudio (b : bool) (s : State) : State :=
  {| isAuthenticated := isAuthenticated s; loading := loading s;
     audio := audio s; loadingAudio := b; error := error s;
     transcriptWords := transcriptWords s;
     transcriptStatus := transcriptStatus s; currentTime := currentTime s;
     pollIntervalRef := pollIntervalRef s; mounted := mounted s;
     intervals := intervals s; nextInterval := nextInterval s;
     inFlight := inFlight s; clearIntervalCalls := clearIntervalCalls s |}.

Definition setError (msg : option string) (s : State) : State :=
  {| isAuthenticated := isAuthenticated s; loading := loading s;
     audio := audio s; loadingAudio := loadingAudio s; error := msg;
     transcriptWords := transcriptWords s;
     transcriptStatus := transcriptStatus s; currentTime := currentTime s;
     pollIntervalRef := pollIntervalRef s; mounted := mounted s;
     intervals := intervals s; nextInterval := nextInterval s;
     inFlight := inFlight s; clearIntervalCalls := clearIntervalCalls s |}.

Definition setTranscriptWords (ws : list TranscriptWord) (s : State) : State :=
  {| isAuthenticated := isAuthenticated s; loading := loading s;
     audio := audio s; loadingAudio := loadingAudio s; error := error s;
     transcriptWords := ws; transcriptStatus := transcriptStatus s;
     currentTime := currentTime s; pollIntervalRef := pollIntervalRef s;
     mounted := mounted s; intervals := intervals s;
     nextInterval := nextInterval s; inFlight := inFlight s;
     clearIntervalCalls := clearIntervalCalls s |}.

Definition setTranscriptStatus (st : Status) (s : State) : State :=
  {| isAuthenticated := isAuthenticated s; loading := loading s;
     audio := audio s; loadingAudio := loadingAudio s; error := error s;
     transcriptWords := transcriptWords s; transcriptStatus := st;
     currentTime := currentTime s; pollIntervalRef := pollIntervalRef s;
     mounted := mounted s; intervals := intervals s;
     nextInterval := nextInterval s; inFlight := inFlight s;
     clearIntervalCalls := clearIntervalCalls s |}.

Definition setCurrentTime (t : float) (s : State) : State :=
  {| isAuthenticated := isAuthenticated s; loading := loading s;
     audio := audio s; loadingAudio := loadingAudio s; error := error s;
     transcriptWords := transcriptWords s;
     transcriptStatus := transcriptStatus s; currentTime := t;
     pollIntervalRef := pollIntervalRef s; mounted := mounted s;
     intervals := intervals s; nextInterval := nextInterval s;
     inFlight := inFlight s; clearIntervalCalls := clearIntervalCalls s |}.

Definition setPollIntervalRef (r : option TimerId) (s : State) : State :=
  {| isAuthenticated := isAuthenticated s; loading := loading s;
     audio := audio s; loadingAudio := loadingAudio s; error := error s;
     transcriptWords := transcriptWords s;
     transcriptStatus := transcriptStatus s; currentTime := currentTime s;
     pollIntervalRef := r; mounted := mounted s; intervals := intervals s;
     nextInterval := nextInterval s; inFlight := inFlight s;
     clearIntervalCalls := clearIntervalCalls s |}.

Definition setMounted (b : bool) (s : State) : State :=
  {| isAuthenticated := isAuthenticated s; loading := loading s;
     audio := audio s; loadingAudio := loadingAudio s; error := error s;
     transcriptWords := transcriptWords s;
     transcriptStatus := transcriptStatus s; currentTime := currentTime s;
     pollIntervalRef := pollIntervalRef s; mounted := b;
     intervals := intervals s; nextInterval := nextInterval s;
     inFlight := inFlight s; clearIntervalCalls := clearIntervalCalls s |}.

Definition setInFlight (n : gmultiset TimerId) (s : State) : State :=
  {| isAuthenticated := isAuthenticated s; loading := loading s;
     audio := audio s; loadingAudio := loadingAudio s; error := error s;
     transcriptWords := transcriptWords s;
     transcriptStatus := transcriptStatus s; currentTime := currentTime s;
     pollIntervalRef := pollIntervalRef s; mounted := mounted s;
     intervals := intervals s; nextInterval := nextInterval s;
     inFlight := n; clearIntervalCalls := clearIntervalCalls s |}.

(** [clearInterval(h)]: the call is recorded, and the interval is no longer
    set; on a handle that is not set the call has no other effect. *)
Definition clearInterval (h : TimerId) (s : State) : State :=
  {| isAuthenticated := isAuthenticated s; loading := loading s;
     audio := audio s; loadingAudio := loadingAudio s; error := error s;
     transcriptWords := transcriptWords s;
     transcriptStatus := transcriptStatus s; currentTime := currentTime s;
     pollIntervalRef := pollIntervalRef s; mounted := mounted s;
     intervals := intervals s ∖ {[h]}; nextInterval := nextInterval s;
     inFlight := inFlight s;
     clearIntervalCalls := clearIntervalCalls s ++ [h] |}.

(** [setInterval(callback, 3000)]: a new handle, now set. *)
Definition setInterval (s : State) : TimerId * State :=
  (nextInterval s,
   {| isAuthenticated := isAuthenticated s; loading := loading s;
      audio := audio s; loadingAudio := loadingAudio s; error := error s;
      transcriptWords := transcriptWords s;
      transcriptStatus := transcriptStatus s; currentTime := currentTime s;
      pollIntervalRef := pollIntervalRef s; mounted := mounted s;
      intervals := intervals s ∪ {[nextInterval s]};
      nextInterval := Pos.succ (nextInterval s); inFlight := inFlight s;
      clearIntervalCalls := clearIntervalCalls s |}).

(** [loadTranscript], lines 142-155, from the answer of [getTranscript]
    on ([None] when the request failed): the new state and the value
    returned. *)
Definition loadTranscript (response : option TranscriptResponse) (s : State)
    : State * option Status :=
  match response with
  | Some response =>
      let s := setTranscriptStatus (status response) s in
      let s :=
        match transcript response with
        | Some tr => setTranscriptWords (words tr) s
        | None => s
        end in
      (s, Some (status response))
  | None => (s, None)
  end.

(** Lines 165-168: what a tick does on a terminal status. *)
Definition stopPolling (s : State) : State :=
  match pollIntervalRef s with
  | Some h => setPollIntervalRef None (clearInterval h s)
  | None => s
  end.

(** The callback of the interval, lines 162-170, from the answer of its
    request on. *)
Definition pollAnswered (response : option TranscriptResponse) (s : State)
    : State :=
  let '(s, st) := loadTranscript response s in
  match st with
  | Some completed | Some failed => stopPolling s
  | _ => s
  end.

(** [startPolling], lines 157-171. *)
Definition startPolling (s : State) : State :=
  let s :=
    match pollIntervalRef s with
    | Some h => clearInterval h s
    | None => s
    end in
  let '(h, s) := setInterval s in
  setPollIntervalRef (Some h) s.

(** The effect of lines 131-140 with [loadAudioFile] up to its first
    request, lines 175-176: a load starts when the user is signed in.  The
    redirection to the login page leaves the state as it is. *)
Definition authEffect (s : State) : State :=
  if isAuthenticated s then setError None (setLoadingAudio true s) else s.

(** A render with the values [isAuthenticated_] and [loading_] of
    [useAuth]: the effect runs when one of them has changed. *)
Definition authChanged (isAuthenticated_ loading_ : bool) (s : State)
    : State :=
  if Bool.eqb isAuthenticated_ (isAuthenticated s)
     && Bool.eqb loading_ (loading s)
  then s
  else authEffect (setAuth isAuthenticated_ loading_ s).

(** [loadAudioFile], lines 178-182 and 209-211: nothing is stored under
    [currentAudio], and the browser is sent to the library. *)
Definition loadRedirected (s : State) : State := setLoadingAudio false s.

(** [loadAudioFile], lines 204-211: the stored entry does not parse, the
    request of the audio file is rejected, or its answer has no [url];
    [status_] is [err.response?.status]. *)
Definition loadFailed (status_ : option Z) (s : State) : State :=
  let errorMsg :=
    if bool_decide (status_ = Some 404)
    then "Audio file not found. It may have been deleted."%string
    else "Failed to load audio file. Please try again."%string in
  setLoadingAudio false (setError (Some errorMsg) s).

(** [loadAudioFile], lines 192-203 and 209-211, once the audio is
    fetched. *)
Definition loadAudioFile (a : StoredAudioFile)
    (response : option TranscriptResponse) (s : State) : State :=
  let s := setAudio a s in
  let '(s, st) := loadTranscript response s in
  let s :=
    match st with
    | Some uploaded | Some processing => startPolling s
    | _ => s
    end in
  setLoadingAudio false s.

(** [handleRetryTranscription], lines 222-233; [ok] tells whether the
    retry request succeeded. *)
Definition handleRetryTranscription (ok : bool) (s : State) : State :=
  match audio s with
  | None => s
  | Some _ =>
      if ok then
        startPolling (setTranscriptWords [] (setTranscriptStatus processing s))
      else s
  end.

(** The cleanup of the effect, lines 239-245: the ref keeps the handle. *)
Definition cleanup (s : State) : State :=
  match pollIntervalRef s with
  | Some h => clearInterval h s
  | None => s
  end.

(** What happens to the page. *)
Inductive Event : Type :=
  | AudioLoaded (a : StoredAudioFile) (response : option TranscriptResponse)
  | IntervalFires (h : TimerId)
  | PollAnswered (h : TimerId) (response : option TranscriptResponse)
  | RetryAnswered (ok : bool)
  | TimeUpdate (t : float)
  | Unmount
  | AuthChanged (isAuthenticated_ loading_ : bool)
  | LoadRedirected
  | LoadFailed (status_ : option Z).

(** One event.  An interval fires only while it is set, and then sends a
    request; an answer comes only to a request that was sent.  The
    callbacks that run after the teardown still call the setters and the
    timers; what they leave in the state variables is not rendered any
    more. *)
Definition step (s : State) (e : Event) : State :=
  match e with
  | AudioLoaded a response => loadAudioFile a response s
  | IntervalFires h =>
      if decide (h ∈ intervals s) then
        setInFlight (inFlight s ⊎ {[+ h +]}) s
      else s
  | PollAnswered h response =>
      if decide (h ∈ inFlight s) then
        pollAnswered response (setInFlight (inFlight s ∖ {[+ h +]}) s)
      else s
  | RetryAnswered ok => handleRetryTranscription ok s
  | TimeUpdate t => setCurrentTime t s
  | Unmount => setMounted false (cleanup s)
  | AuthChanged isAuthenticated_ loading_ =>
      authChanged isAuthenticated_ loading_ s
  | LoadRedirected => loadRedirected s
  | LoadFailed status_ => loadFailed status_ s
  end.

Definition run (s : State) (es : list Event) : State := foldl step s es.

(** The observation that an event applies to the state, if any. *)
Definition observed (s : State) (e : Event) : option TranscriptResponse :=
  match e with
  | AudioLoaded _ response => response
  | PollAnswered h response =>
      if decide (h ∈ inFlight s) then response else None
  | _ => None
  end.

(** The answer that an event carries, applied or not. *)
Definition carried (e : Event) : option TranscriptResponse :=
  match e with
  | AudioLoaded _ response | PollAnswered _ response => response
  | _ => None
  end.

(** The props that the page hands to the transcript view, lines 326-332. *)
Definition viewProps (s : State) : TranscriptView.Props :=
  {| TranscriptView.words := transcriptWords s;
     TranscriptView.currentTime := currentTime s;
     TranscriptView.status := transcriptStatus s;
     TranscriptView.onRetry := true |}.

(** What the page returns, lines 247-336. *)
Inductive PageView : Type :=
  | Skeleton
  | Blank                         (* [return null] *)
  | ErrorPage (error_ : string)
  | Player (audio_ : StoredAudioFile) (view : option TranscriptView.View).

Definition render (s : State) : PageView :=
  if loading s || loadingAudio s then Skeleton
  else if negb (isAuthenticated s) then Blank
  else
    match error s with
    | Some (String c msg) => ErrorPage (String c msg)
    | _ =>
        match audio s with
        | None => Blank
        | Some a => Player a (TranscriptView.render (viewProps s))
        end
    end.

(** The tokens on the screen: those that the transcript view shows, when
    the page is mounted and returns the player; none otherwise. *)
Definition visibleWords (s : State) : list TranscriptWord :=
  if mounted s then
    match render s with
    | Player _ _ => TranscriptView.shownWords (viewProps s)
    | _ => []
    end
  else [].


(** Whether an event is the firing of the interval [h], and whether it
    belongs to the poll of the interval [h]: a firing of [h] or the answer
    to a request that a tick of [h] sent. *)
Definition fires (h : TimerId) (e : Event) : bool :=
  match e with
  | IntervalFires h' => bool_decide (h' = h)
  | _ => false
  end.

Definition of_poll (h : TimerId) (e : Event) : bool :=
  match e with
  | IntervalFires h' | PollAnswered h' _ => bool_decide (h' = h)
  | _ => false
  end.

End PlayerPage.

(** Sample data for the player page: the audio file of [lettersFile], and
    the answer of the transcript service with a given status. *)
Definition sampleAudio : PlayerPage.StoredAudioFile :=
  {| PlayerPage.id := "audio-1"; PlayerPage.title := "alphabet";
     PlayerPage.url := "/alphabet.mp3"; PlayerPage.duration := Some 12%float;
     PlayerPage.size := 1024%float |}.

Definition answer (st : Status) (tr : option Transcript) : TranscriptResponse :=
  {| audio_id := "audio-1"; status := st; transcript := tr |}.

(** The timers of a reachable state: an interval that is set is the one
    that [pollIntervalRef] holds, and the handles in use are older than
    the next one. *)
Definition timers_owned (s : PlayerPage.State) : Prop :=
  (forall h, h ∈ PlayerPage.intervals s -> PlayerPage.pollIntervalRef s = Some h) /\
  (forall h, PlayerPage.pollIntervalRef s = Some h ->
     (h < PlayerPage.nextInterval s)%positive).

(** A handle that was given out and is not set any more. *)
Definition cleared (h : PlayerPage.TimerId) (s : PlayerPage.State) : Prop :=
  (h ∉ PlayerPage.intervals s) /\ (h < PlayerPage.nextInterval s)%positive.

(** A cleared handle with no request of its ticks left in flight. *)
Definition quiet (h : PlayerPage.TimerId) (s : PlayerPage.State) : Prop :=
  cleared h s /\ h ∉ PlayerPage.inFlight s.

(** The events that end a poll: a tick that observes a terminal status,
    the teardown of the page, and a new [startPolling] (after a retry, or
    after a load that finds the transcript pending). *)
Definition ends_poll (s : PlayerPage.State) (e : PlayerPage.Event) : Prop :=
  match e with
  | PlayerPage.PollAnswered h (Some r) =>
      h ∈ PlayerPage.inFlight s /\
      (status r = completed \/ status r = failed)
  | PlayerPage.Unmount => True
  | PlayerPage.RetryAnswered true => PlayerPage.audio s <> None
  | PlayerPage.AudioLoaded _ (Some r) =>
      status r = uploaded \/ status r = processing
  | _ => False
  end.

(** The page after it loaded an audio file whose transcript the service
    reports with status [st]. *)
Definition loadedWith (st : Status) (tr : option Transcript)
    : PlayerPage.State :=
  PlayerPage.run PlayerPage.init
    [PlayerPage.AudioLoaded sampleAudio (Some (answer st tr))].

(** The page polling a transcript that is being processed, with the
    request of the first tick sent. *)
Definition firstTickSent : list PlayerPage.Event :=
  [PlayerPage.AudioLoaded sampleAudio (Some (answer processing None));
   PlayerPage.IntervalFires 1%positive].

(** ** The library page: [handleFilesSelected] *)

Module UploadStatus.
Inductive t : Type := uploading | success | error.
End UploadStatus.

#[global] Instance UploadStatus_eq_dec : EqDecision UploadStatus.t.
Proof. solve_decision. Defined.

(** A [File] of the browser. *)
Module File.
Record t : Type := { name : string; size : float; type : string }.
End File.

(** [UploadingFile] of [types/audio]. *)
Module UploadingFile.
Record t : Type := {
  id : string;
  file : File.t;
  progress : float;
  status : UploadStatus.t;
  error : option string
}.
End UploadingFile.

Module HomePage.

Inductive NotificationType : Type := success | error.

(** The state variables of the page that an upload touches, and the
    timeouts that are set and have not fired: those that empty the upload
    list, lines 70-72 and 85-87, and those that take the notification
    away, line 24. *)
Record State : Type := {
  audioFiles : list AudioFile.t;
  uploadingFiles : list UploadingFile.t;
  isUploading : bool;
  notification : option (NotificationType * string);
  uploadTimers : nat;
  notificationTimers : nat
}.

Definition setAudioFiles (l : list AudioFile.t) (s : State) : State :=
  {| audioFiles := l; uploadingFiles := uploadingFiles s;
     isUploading := isUploading s; notification := notification s;
     uploadTimers := uploadTimers s;
     notificationTimers := notificationTimers s |}.

Definition setUploadingFiles (l : list UploadingFile.t) (s : State) : State :=
  {| audioFiles := audioFiles s; uploadingFiles := l;
     isUploading := isUploading s; notification := notification s;
     uploadTimers := uploadTimers s;
     notificationTimers := notificationTimers s |}.

Definition setIsUploading (b : bool) (s : State) : State :=
  {| audioFiles := audioFiles s; uploadingFiles := uploadingFiles s;
     isUploading := b; notification := notification s;
     uploadTimers := uploadTimers s;
     notificationTimers := notificationTimers s |}.

Definition setNotification (n : option (NotificationType * string))
    (s : State) : State :=
  {| audioFiles := audioFiles s; uploadingFiles := uploadingFiles s;
     isUploading := isUploading s; notification := n;
     uploadTimers := uploadTimers s;
     notificationTimers := notificationTimers s |}.

Definition setUploadTimers (n : nat) (s : State) : State :=
  {| audioFiles := audioFiles s; uploadingFiles := uploadingFiles s;
     isUploading := isUploading s; notification := notification s;
     uploadTimers := n; notificationTimers := notificationTimers s |}.

Definition setNotificationTimers (n : nat) (s : State) : State :=
  {| audioFiles := audioFiles s; uploadingFiles := uploadingFiles s;
     isUploading := isUploading s; notification := notification s;
     uploadTimers := uploadTimers s; notificationTimers := n |}.

(** [showNotification], lines 22-25. *)
Definition showNotification (ty : NotificationType) (msg : string)
    (s : State) : State :=
  setNotificationTimers (S (notificationTimers s))
    (setNotification (Some (ty, msg)) s).

(** What the rejection of [uploadAudio] carries: the [detail] of the
    answer of the server and the [message] of the error, each possibly
    undefined. *)
Record UploadError : Type := {
  detail : option string;
  message : option string
}.

(** [a || b] on a string that may be undefined: undefined and the empty
    string are falsy. *)
Definition truthy (a : option string) : option string :=
  match a with
  | Some EmptyString => None
  | _ => a
  end.

(** Line 75. *)
Definition errorMessage (err : UploadError) : string :=
  match truthy (detail err) with
  | Some d => d
  | None =>
      match truthy (message err) with
      | Some m => m
      | None => "Upload failed"
      end
  end.

(** Lines 43-48; [uuidv4 i] is the identifier drawn for the file at
    index [i]. *)
Definition newUploadingFiles (uuidv4 : nat -> string) (files : list File.t)
    : list UploadingFile.t :=
  imap (fun i f =>
          {| UploadingFile.id := uuidv4 i; UploadingFile.file := f;
             UploadingFile.progress := 0;
             UploadingFile.status := UploadStatus.uploading;
             UploadingFile.error := None |})
    files.

(** The update of the progress callback, lines 55-57. *)
Definition onProgress (fileIndex : nat) (progress : float)
    (prev : list UploadingFile.t) : list UploadingFile.t :=
  imap (fun i f =>
          if (i =? fileIndex)%nat then
            {| UploadingFile.id := UploadingFile.id f;
               UploadingFile.file := UploadingFile.file f;
               UploadingFile.progress := progress;
               UploadingFile.status := UploadingFile.status f;
               UploadingFile.error := UploadingFile.error f |}
          else f)
    prev.

(** Line 60 and lines 77-81. *)
Definition markSuccess (f : UploadingFile.t) : UploadingFile.t :=
  {| UploadingFile.id := UploadingFile.id f;
     UploadingFile.file := UploadingFile.file f;
     UploadingFile.progress := 100;
     UploadingFile.status := UploadStatus.success;
     UploadingFile.error := UploadingFile.error f |}.

Definition markError (errorMessage_ : string) (f : UploadingFile.t)
    : UploadingFile.t :=
  {| UploadingFile.id := UploadingFile.id f;
     UploadingFile.file := UploadingFile.file f;
     UploadingFile.progress := UploadingFile.progress f;
     UploadingFile.status := UploadStatus.error;
     UploadingFile.error := Some errorMessage_ |}.

(** Line 68. *)
Definition successMessage (n : nat) : string :=
  ("Successfully uploaded " ++ pretty n ++ " file"
     ++ (if (1 <? n)%nat then "s" else ""))%string.

(** [handleFilesSelected], lines 43-51, up to the request: the upload
    list is replaced by the entries of the batch. *)
Definition uploadStarted (uuidv4 : nat -> string) (files : list File.t)
    (s : State) : State :=
  setIsUploading true (setUploadingFiles (newUploadingFiles uuidv4 files) s).

(** One call of the progress callback, lines 54-58, on the upload list as
    it is then. *)
Definition uploadProgress (fileIndex : nat) (progress : float) (s : State)
    : State :=
  setUploadingFiles (onProgress fileIndex progress (uploadingFiles s)) s.

(** [handleFilesSelected], lines 60-90, from the answer of the request
    on: [files] is the batch of the call, [outcome] what its request ends
    with, the files created or an error.  The entries that are marked are
    those of the upload list as it is then. *)
Definition uploadAnswered (files : list File.t)
    (outcome : list AudioFile.t + UploadError) (s : State) : State :=
  let s :=
    match outcome with
    | inl uploadedFiles =>
        let s := setUploadingFiles (markSuccess <$> uploadingFiles s) s in
        let s := setAudioFiles (uploadedFiles ++ audioFiles s) s in
        let s := showNotification success (successMessage (length files)) s in
        setUploadTimers (S (uploadTimers s)) s
    | inr err =>
        let errorMessage_ := errorMessage err in
        let s :=
          setUploadingFiles (markError errorMessage_ <$> uploadingFiles s) s in
        let s := showNotification error errorMessage_ s in
        setUploadTimers (S (uploadTimers s)) s
    end in
  setIsUploading false s.

(** A call of [handleFilesSelected], lines 42-91, during which nothing
    else touches the page: [progress] lists the calls of the progress
    callback. *)
Definition handleFilesSelected (uuidv4 : nat -> string) (files : list File.t)
    (progress : list (nat * float))
    (outcome : list AudioFile.t + UploadError) (s : State) : State :=
  uploadAnswered files outcome
    (foldl (fun s '(fileIndex, p) => uploadProgress fileIndex p s)
       (uploadStarted uuidv4 files s) progress).

(** What happens to the page during uploads: a selection of files, a call
    of the progress callback, the answer to the request of a batch, a
    timeout that fires, the Close button of the notification. *)
Inductive Event : Type :=
  | FilesSelected (uuidv4 : nat -> string) (files : list File.t)
  | UploadProgress (fileIndex : nat) (progress : float)
  | UploadAnswered (files : list File.t)
      (outcome : list AudioFile.t + UploadError)
  | UploadTimerFires
  | NotificationTimerFires
  | NotificationClosed.

(** One event.  A timeout fires only when it is set. *)
Definition step (s : State) (e : Event) : State :=
  match e with
  | FilesSelected uuidv4 files => uploadStarted uuidv4 files s
  | UploadProgress fileIndex progress => uploadProgress fileIndex progress s
  | UploadAnswered files outcome => uploadAnswered files outcome s
  | UploadTimerFires =>
      match uploadTimers s with
      | O => s
      | S n => setUploadTimers n (setUploadingFiles [] s)
      end
  | NotificationTimerFires =>
      match notificationTimers s with
      | O => s
      | S n => setNotificationTimers n (setNotification None s)
      end
  | NotificationClosed => setNotification None s
  end.

Definition run (s : State) (es : list Event) : State := foldl step s es.

(** The events that leave the entries of the upload list in place: they
    neither replace the list nor empty it nor mark its entries. *)
Definition keepsUploadList (e : Event) : bool :=
  match e with
  | UploadProgress _ _ | NotificationTimerFires | NotificationClosed => true
  | _ => false
  end.

End HomePage.

(** A batch of two files, and the rejection of the upload with the
    complaint of the server about the second one. *)
Definition twoFiles : list File.t :=
  [ {| File.name := "a.mp3"; File.size := 1000%float; File.type := "audio/mpeg" |};
    {| File.name := "b.wav"; File.size := 2000%float; File.type := "audio/wav" |} ].

Definition secondFileRefused : HomePage.UploadError :=
  {| HomePage.detail := Some "b.wav: unsupported format"%string;
     HomePage.message := Some "Request failed with status code 400"%string |}.

Definition emptyLibrary : HomePage.State :=
  {| HomePage.audioFiles := []; HomePage.uploadingFiles := [];
     HomePage.isUploading := false; HomePage.notification := None;
     HomePage.uploadTimers := 0; HomePage.notificationTimers := 0 |}.

Definition sampleUuid (i : nat) : string := pretty i.

(** * Theorems *)

(** ** Order of the numbers *)

Lemma SFltb_rank f g :
  SFltb f g = true <->
  exists a b, rank f = Some a /\ rank g = Some b /\ lexlt a b.
Proof.
  unfold SFltb, SFcompare.
  destruct f as [[|]|[|]| |[|] m1 e1], g as [[|]|[|]| |[|] m2 e2]; cbn;
    try (split; [discriminate | intros (a & b & Ha & Hb & Hl);
                  try discriminate; injection Ha as <-; injection Hb as <-;
                  cbn in Hl; lia]);
    try (split; [intros _; do 2 eexists; repeat split; cbn; lia | reflexivity]).
  - change (Pos.compare_cont Eq m1 m2) with (Pos.compare m1 m2).
    destruct (Z.compare_spec e1 e2), (Pos.compare_spec m1 m2); cbn;
      (split; [ try discriminate; intros _; do 2 eexists; repeat split; cbn; lia
              | intros (a & b & Ha & Hb & Hl); injection Ha as <-;
                injection Hb as <-; cbn in Hl; try reflexivity; lia ]).
  - change (Pos.compare_cont Eq m1 m2) with (Pos.compare m1 m2).
    destruct (Z.compare_spec e1 e2), (Pos.compare_spec m1 m2); cbn;
      (split; [ try discriminate; intros _; do 2 eexists; repeat split; cbn; lia
              | intros (a & b & Ha & Hb & Hl); injection Ha as <-;
                injection Hb as <-; cbn in Hl; try reflexivity; lia ]).
Qed.

Lemma SFleb_rank f g :
  SFleb f g = true <->
  exists a b, rank f = Some a /\ rank g = Some b /\ lexle a b.
Proof.
  unfold SFleb, SFcompare.
  destruct f as [[|]|[|]| |[|] m1 e1], g as [[|]|[|]| |[|] m2 e2]; cbn;
    try (split; [discriminate | intros (a & b & Ha & Hb & Hl);
                  try discriminate; injection Ha as <-; injection Hb as <-;
                  cbn in Hl; lia]);
    try (split; [intros _; do 2 eexists; repeat split; cbn; lia | reflexivity]).
  - change (Pos.compare_cont Eq m1 m2) with (Pos.compare m1 m2).
    destruct (Z.compare_spec e1 e2), (Pos.compare_spec m1 m2); cbn;
      (split; [ try discriminate; intros _; do 2 eexists; repeat split; cbn; lia
              | intros (a & b & Ha & Hb & Hl); injection Ha as <-;
                injection Hb as <-; cbn in Hl; try reflexivity; lia ]).
  - change (Pos.compare_cont Eq m1 m2) with (Pos.compare m1 m2).
    destruct (Z.compare_spec e1 e2), (Pos.compare_spec m1 m2); cbn;
      (split; [ try discriminate; intros _; do 2 eexists; repeat split; cbn; lia
              | intros (a & b & Ha & Hb & Hl); injection Ha as <-;
                injection Hb as <-; cbn in Hl; try reflexivity; lia ]).
Qed.

Lemma num_lt_rk x y :
  num_lt x y = true <-> exists a b, rk x = Some a /\ rk y = Some b /\ lexlt a b.
Proof. unfold num_lt, rk. rewrite ltb_spec. apply SFltb_rank. Qed.

Lemma num_ge_rk x y :
  num_ge x y = true <-> exists a b, rk y = Some a /\ rk x = Some b /\ lexle a b.
Proof. unfold num_ge, rk. rewrite leb_spec. apply SFleb_rank. Qed.

Lemma leb_rk x y :
  PrimFloat.leb x y = true <->
  exists a b, rk x = Some a /\ rk y = Some b /\ lexle a b.
Proof. apply (num_ge_rk y x). Qed.

Lemma is_num_rk x : is_num x <-> exists a, rk x = Some a.
Proof.
  unfold is_num. rewrite leb_rk. split.
  - intros (a & _ & Ha & _). eauto.
  - intros [[[a1 a2] a3] Ha]. exists (a1, a2, a3), (a1, a2, a3).
    repeat split; trivial. cbn. lia.
Qed.

(** Turns every comparison of the context into a statement on ranks. *)
Ltac rank_all :=
  repeat match goal with
  | H : num_lt _ _ = true |- _ =>
      apply num_lt_rk in H; destruct H as ([[? ?] ?] & [[? ?] ?] & ? & ? & H)
  | H : num_ge _ _ = true |- _ =>
      apply num_ge_rk in H; destruct H as ([[? ?] ?] & [[? ?] ?] & ? & ? & H)
  | H : PrimFloat.leb _ _ = true |- _ =>
      apply leb_rk in H; destruct H as ([[? ?] ?] & [[? ?] ?] & ? & ? & H)
  | H : is_num _ |- _ =>
      apply is_num_rk in H; destruct H as ([[? ?] ?] & H)
  end;
  repeat match goal with
  | H : rk ?x = Some _, H' : rk ?x = Some _ |- _ =>
      rewrite H in H'; injection H' as ? ? ?; subst
  end.

Ltac rank_goal :=
  first
    [ apply num_lt_rk | apply num_ge_rk | apply leb_rk ];
  do 2 eexists; repeat split; try eassumption; cbn in *; lia.

Lemma num_lt_not_ge x y : num_lt x y = true -> num_ge x y = false.
Proof.
  intros H. destruct (num_ge x y) eqn:E; trivial.
  rank_all. cbn in *. lia.
Qed.

Lemma num_ge_not_lt x y : num_ge x y = true -> num_lt x y = false.
Proof.
  intros H. destruct (num_lt x y) eqn:E; trivial.
  rank_all. cbn in *. lia.
Qed.

Lemma leb_trans x y z :
  PrimFloat.leb x y = true -> PrimFloat.leb y z = true ->
  PrimFloat.leb x z = true.
Proof. intros H1 H2. rank_all. rank_goal. Qed.

Lemma num_lt_leb_trans x y z :
  num_lt x y = true -> PrimFloat.leb y z = true -> num_lt x z = true.
Proof. intros H1 H2. rank_all. rank_goal. Qed.

Lemma leb_is_num x y : PrimFloat.leb x y = true -> is_num x /\ is_num y.
Proof.
  intros H. rank_all. split; apply is_num_rk; eauto.
Qed.

(** On numbers that are not NaN the order is total. *)
Lemma num_ge_or_lt x y : is_num x -> is_num y ->
  num_ge x y = true \/ num_lt x y = true.
Proof.
  intros Hx Hy. rank_all.
  match goal with
  | Hx : rk x = Some (?a1, ?a2, ?a3), Hy : rk y = Some (?b1, ?b2, ?b3) |- _ =>
      destruct (Z_lt_le_dec a1 b1) as [?|?];
      [ right; rank_goal | ];
      destruct (Z.eq_dec a1 b1) as [?|?]; [ | left; rank_goal ];
      destruct (Z_lt_le_dec a2 b2) as [?|?]; [ right; rank_goal | ];
      destruct (Z.eq_dec a2 b2) as [?|?]; [ | left; rank_goal ];
      destruct (Z_lt_le_dec a3 b3) as [?|?]; [ right; rank_goal | left; rank_goal ]
  end.
Qed.

(** ** Time index *)

Section FindIndex.
Context {A : Type} (p : A -> nat -> option bool).

(** When the callback never throws, [findIndex] returns, and it returns
    either [-1] with the callback false everywhere, or the first index at
    which the callback is true. *)
Lemma findIndex_from_spec (l : list A) (i : nat) :
  (forall j x, l !! j = Some x -> p x (i + j)%nat <> None) ->
  (findIndex_from p l i = Some (-1) /\
   forall j x, l !! j = Some x -> p x (i + j)%nat = Some false) \/
  (exists k x, findIndex_from p l i = Some (Z.of_nat (i + k)) /\
     l !! k = Some x /\ p x (i + k)%nat = Some true /\
     forall j y, (j < k)%nat -> l !! j = Some y ->
       p y (i + j)%nat = Some false).
Proof.
  revert i. induction l as [|a l IH]; intros i Hp.
  - left. split; [reflexivity | intros j x Hj; discriminate].
  - cbn [findIndex_from].
    pose proof (Hp 0%nat a eq_refl) as Ha. rewrite Nat.add_0_r in Ha.
    destruct (p a i) as [[|]|] eqn:E; [ | | congruence].
    + right. exists 0%nat, a. rewrite Nat.add_0_r.
      repeat split; trivial. intros j y Hj. lia.
    + destruct (IH (S i)) as [[H1 H2] | (k & x & H1 & H2 & H3 & H4)].
      * intros j x Hj. replace (S i + j)%nat with (i + S j)%nat by lia.
        apply Hp. exact Hj.
      * left. split; [exact H1 |].
        intros [|j] x Hj.
        -- injection Hj as <-. rewrite Nat.add_0_r. exact E.
        -- replace (i + S j)%nat with (S i + j)%nat by lia. apply H2, Hj.
      * right. exists (S k), x.
        replace (i + S k)%nat with (S i + k)%nat by lia.
        repeat split; trivial.
        intros [|j] y Hlt Hj.
        -- injection Hj as <-. rewrite Nat.add_0_r. exact E.
        -- replace (i + S j)%nat with (S i + j)%nat by lia.
           apply (H4 j y); [lia | exact Hj].
Qed.
End FindIndex.

(** The guard [i === words.length - 1] keeps the read of [words[i + 1]]
    inside the array: the callback never throws. *)
Lemma isActive_no_throw ws t i w :
  ws !! i = Some w -> isActive ws t w i <> None.
Proof.
  intros Hi. unfold isActive.
  destruct (num_ge t (start w)); [ | discriminate].
  destruct (Z.eqb_spec (Z.of_nat i) (Z.of_nat (length ws) - 1)) as [?|Hne];
    [discriminate |].
  apply lookup_lt_Some in Hi.
  destruct (lookup_lt_is_Some_2 ws (i + 1)%nat) as [w' ->]; [lia | discriminate].
Qed.

Lemma isActive_true ws t i w :
  ws !! i = Some w ->
  (isActive ws t w i = Some true <-> window_contract ws t i).
Proof.
  intros Hi. pose proof (lookup_lt_Some _ _ _ Hi) as Hlt.
  unfold isActive, window_contract. split.
  - intros H. exists w. split; [exact Hi |].
    destruct (num_ge t (start w)); [ | discriminate]. split; [reflexivity |].
    destruct (Z.eqb_spec (Z.of_nat i) (Z.of_nat (length ws) - 1)) as [?|Hne].
    + left. lia.
    + right. replace (S i) with (i + 1)%nat by lia.
      destruct (ws !! (i + 1)%nat) as [w'|]; [ | discriminate].
      exists w'. split; [reflexivity | congruence].
  - intros (w1 & Hw1 & Hge & Hnext).
    assert (w1 = w) as -> by congruence. rewrite Hge.
    destruct (Z.eqb_spec (Z.of_nat i) (Z.of_nat (length ws) - 1)) as [?|Hne];
      [reflexivity |].
    destruct Hnext as [? | (w' & Hw' & Hlt')]; [lia |].
    replace (i + 1)%nat with (S i) by lia. rewrite Hw', Hlt'. reflexivity.
Qed.

(** The active-word computation always returns: [-1] with no index meeting
    the window contract, or the first index that meets it. *)
Lemma activeWordIndex_spec ws t :
  (activeWordIndex ws t = Some (-1) /\ forall j, ~ window_contract ws t j) \/
  (exists k, activeWordIndex ws t = Some (Z.of_nat k) /\
     window_contract ws t k /\
     forall j, (j < k)%nat -> ~ window_contract ws t j).
Proof.
  unfold activeWordIndex, findIndex.
  destruct (findIndex_from_spec (isActive ws t) ws 0)
    as [[H1 H2] | (k & x & H1 & H2 & H3 & H4)].
  - intros j x Hj. apply isActive_no_throw. exact Hj.
  - left. split; [exact H1 |]. intros j Hc.
    destruct Hc as (w & Hw & Hrest).
    assert (isActive ws t w j = Some true) as Ht
      by (apply isActive_true; [exact Hw | exists w; auto]).
    specialize (H2 j w Hw). cbn in H2. congruence.
  - right. exists k. cbn in H1, H3. split; [exact H1 |]. split.
    + apply (isActive_true ws t k x H2). exact H3.
    + intros j Hlt Hc. destruct Hc as (w & Hw & Hrest).
      assert (isActive ws t w j = Some true) as Ht
        by (apply isActive_true; [exact Hw | exists w; auto]).
      specialize (H4 j w Hlt Hw). cbn in H4. congruence.
Qed.

Lemma sorted_by_start_lt ws i j a b :
  sorted_by_start ws -> (i < j)%nat ->
  ws !! i = Some a -> ws !! j = Some b ->
  PrimFloat.leb (start a) (start b) = true.
Proof.
  intros Hs Hlt Ha. revert b. induction j as [|j IH]; intros b Hb; [lia |].
  destruct (lookup_lt_is_Some_2 ws j) as [c Hc].
  { apply lookup_lt_Some in Hb. lia. }
  pose proof (Hs j c b Hc Hb) as Hcb.
  destruct (Nat.eq_dec i j) as [->|Hne].
  - congruence.
  - apply (leb_trans _ (start c)); [apply IH; [lia | exact Hc] | exact Hcb].
Qed.

(** In a sorted sequence at most one index meets the window contract. *)
Lemma window_contract_unique ws t i j :
  sorted_by_start ws ->
  window_contract ws t i -> window_contract ws t j -> i = j.
Proof.
  intros Hs.
  assert (forall i j, (i < j)%nat ->
            window_contract ws t i -> window_contract ws t j -> False) as Hlt.
  { clear i j. intros i j Hij (a & Ha & _ & Hnext) (b & Hb & Hge & _).
    destruct Hnext as [Hlast | (a' & Ha' & Hlt')].
    - apply lookup_lt_Some in Hb. lia.
    - assert (num_lt t (start b) = true) as Hlt''.
      { destruct (Nat.eq_dec (S i) j) as [<-|Hne].
        - congruence.
        - apply (num_lt_leb_trans _ (start a')); [exact Hlt' |].
          apply (sorted_by_start_lt ws (S i) j); trivial. lia. }
      apply num_ge_not_lt in Hge. congruence. }
  intros Hi Hj.
  destruct (Nat.lt_trichotomy i j) as [H|[H|H]]; [ | exact H | ];
    exfalso; eauto.
Qed.

(** In a sorted sequence, from the first token's start on, some index meets
    the window contract. *)
Lemma window_contract_exists ws t w0 :
  sorted_by_start ws -> ws !! 0%nat = Some w0 ->
  num_ge t (start w0) = true ->
  exists i, window_contract ws t i.
Proof.
  intros Hs H0 Hge.
  destruct (activeWordIndex_spec ws t) as [[_ Hnone] | (k & _ & Hk & _)];
    [ | eauto].
  exfalso.
  assert (forall j w, ws !! j = Some w -> num_ge t (start w) = true) as Hall.
  { induction j as [|j IH]; intros w Hw.
    - congruence.
    - destruct (lookup_lt_is_Some_2 ws j) as [c Hc].
      { apply lookup_lt_Some in Hw. lia. }
      pose proof (IH c Hc) as Hgc.
      pose proof (Hs j c w Hc Hw) as Hcw.
      destruct (num_ge_or_lt t (start w)) as [?|Hlt]; trivial.
      + apply (leb_is_num (start c) t). exact Hgc.
      + apply (leb_is_num (start c) (start w)). exact Hcw.
      + exfalso. apply (Hnone j). exists c. repeat split; trivial.
        right. exists w. auto. }
  pose proof (lookup_lt_Some _ _ _ H0) as Hlen.
  destruct (lookup_lt_is_Some_2 ws (length ws - 1)) as [c Hc]; [lia |].
  apply (Hnone (length ws - 1)%nat). exists c. repeat split; eauto.
  left. lia.
Qed.

Lemma is_sorted_by_start_correct ws :
  is_sorted_by_start ws = true -> sorted_by_start ws.
Proof.
  induction ws as [|a ws IH]; intros H i x y Hx Hy; [discriminate |].
  destruct ws as [|b ws]; [destruct i; discriminate |].
  cbn [is_sorted_by_start] in H. apply andb_prop in H as [Hab Hrest].
  destruct i as [|i].
  - cbn in Hx, Hy. congruence.
  - apply (IH Hrest i x y); assumption.
Qed.

(** C5: for a non-empty token sequence sorted by non-decreasing start and a
    time at or after the first token's start, the active-word computation
    returns an index that meets the window contract, and that index is the
    only one that meets it; on the empty sequence it returns [-1] (none)
    for every time. *)
Theorem activeWordIndex_window_contract (ws : list TranscriptWord) (t : float) :
  (forall w0, ws !! 0%nat = Some w0 -> sorted_by_start ws ->
     num_ge t (start w0) = true ->
     exists i, activeWordIndex ws t = Some (Z.of_nat i) /\
       window_contract ws t i /\
       forall j, window_contract ws t j -> j = i) /\
  activeWordIndex [] t = Some (-1).
Proof.
  split; [ | reflexivity].
  intros w0 H0 Hs Hge.
  destruct (window_contract_exists ws t w0 Hs H0 Hge) as [i Hi].
  destruct (activeWordIndex_spec ws t) as [[_ Hnone] | (k & Hk & Hck & _)].
  - destruct (Hnone i Hi).
  - exists k. repeat split; trivial.
    intros j Hj. apply (window_contract_unique ws t); assumption.
Qed.

Lemma activeWordIndex_window_contract_witness :
  exists i,
    activeWordIndex [mkWord "a" 0; mkWord "b" 1; mkWord "c" 2] 1.5 =
      Some (Z.of_nat i) /\
    window_contract [mkWord "a" 0; mkWord "b" 1; mkWord "c" 2] 1.5 i /\
    forall j, window_contract [mkWord "a" 0; mkWord "b" 1; mkWord "c" 2] 1.5 j ->
      j = i.
Proof.
  apply (proj1 (activeWordIndex_window_contract
                  [mkWord "a" 0; mkWord "b" 1; mkWord "c" 2] 1.5)
           (mkWord "a" 0)).
  - reflexivity.
  - apply is_sorted_by_start_correct. reflexivity.
  - reflexivity.
Defined.

(** C1, as the code has it: when the time is strictly before the first
    token's start, the active-word computation does not return index 0; on
    a sequence sorted by start it returns [-1], no active word. *)
Theorem activeWordIndex_before_first (ws : list TranscriptWord) (t : float)
    (w0 : TranscriptWord) :
  ws !! 0%nat = Some w0 -> num_lt t (start w0) = true ->
  activeWordIndex ws t <> Some 0 /\
  (sorted_by_start ws -> activeWordIndex ws t = Some (-1)).
Proof.
  intros H0 Hlt.
  assert (~ window_contract ws t 0) as Hn0.
  { intros (w & Hw & Hge & _). assert (w = w0) as -> by congruence.
    apply num_lt_not_ge in Hlt. congruence. }
  split.
  - destruct (activeWordIndex_spec ws t) as [[-> _] | (k & -> & Hk & _)];
      [discriminate |].
    intros [= Hz]. assert (k = 0%nat) as -> by lia. auto.
  - intros Hs.
    destruct (activeWordIndex_spec ws t) as [[H _] | (k & _ & Hk & _)];
      [exact H | exfalso].
    destruct k as [|k]; [auto |].
    destruct Hk as (w & Hw & Hge & _).
    pose proof (sorted_by_start_lt ws 0 (S k) w0 w Hs ltac:(lia) H0 Hw) as Hle.
    pose proof (num_lt_leb_trans _ _ _ Hlt Hle) as Hlt'.
    apply num_lt_not_ge in Hlt'. congruence.
Qed.

Lemma activeWordIndex_before_first_witness :
  activeWordIndex [mkWord "a" 1; mkWord "b" 2] 0 <> Some 0 /\
  activeWordIndex [mkWord "a" 1; mkWord "b" 2] 0 = Some (-1).
Proof.
  destruct (activeWordIndex_before_first
              [mkWord "a" 1; mkWord "b" 2] 0 (mkWord "a" 1))
    as [Hnot0 Hnone]; [reflexivity | reflexivity |].
  split; [exact Hnot0 |].
  apply Hnone, is_sorted_by_start_correct. reflexivity.
Defined.

(** C1 as stated fails: one token starting at 1 second and time 0, which is
    strictly before that start, give [-1] and not index 0. *)
Lemma activeWordIndex_before_first_counterexample :
  num_lt 0 (start (mkWord "hello" 1)) = true /\
  activeWordIndex [mkWord "hello" 1] 0 = Some (-1) /\
  activeWordIndex [mkWord "hello" 1] 0 <> Some 0.
Proof. repeat split. discriminate. Qed.

(** ** Search *)

Lemma mapM_lookup_seq {A B : Type} (f : A -> B) (l : list A) (a n : nat) :
  (a + n <= length l)%nat ->
  mapM (fun j => f <$> l !! j) (seq a n) = Some (f <$> take n (drop a l)).
Proof.
  revert a. induction n as [|n IH]; intros a Hle; [reflexivity |].
  destruct (lookup_lt_is_Some_2 l a) as [x Hx]; [lia |].
  rewrite (drop_S l x a Hx). cbn. rewrite Hx. cbn.
  rewrite IH by lia. reflexivity.
Qed.

Section Scan.
Import SearchPage.
Variable ws : list TranscriptWord.

Lemma windowLo_le i : (windowLo i <= i)%nat.
Proof. unfold windowLo. lia. Qed.

Lemma window_bounds i : (i < length ws)%nat ->
  (windowLo i < windowHi (length ws) i <= length ws)%nat.
Proof. unfold windowLo, windowHi. lia. Qed.

(** The inner loop never reads outside the array, and it collects the
    window of the specification. *)
Lemma contextWindow_spec i : (i < length ws)%nat ->
  contextWindow ws i = Some (word <$> spec_window ws i).
Proof.
  intros Hi. unfold contextWindow.
  rewrite mapM_lookup_seq by (pose proof (window_bounds i Hi); lia).
  unfold spec_window, windowLo, windowHi. do 3 f_equal. lia.
Qed.

Lemma spec_window_length i : (length (spec_window ws i) <= 11)%nat.
Proof. unfold spec_window. rewrite length_take. lia. Qed.

Lemma windowMatches_spec q i : (i < length ws)%nat ->
  windowMatches ws q i =
  includes (toLowerCase (join " " (word <$> spec_window ws i)))
    (toLowerCase q).
Proof. intros Hi. unfold windowMatches. rewrite contextWindow_spec; auto. Qed.

(** The body of the loop never throws. *)
Lemma scanBody_spec q i found : (i < length ws)%nat ->
  exists w, ws !! windowLo i = Some w /\
    scanBody ws (toLowerCase q) i found =
    Some (if windowMatches ws q i
          then ((i + 5)%nat,
                found ++ [{| text := join " " (word <$> spec_window ws i);
                             startTime := start w |}])
          else (i, found)).
Proof.
  intros Hi.
  destruct (lookup_lt_is_Some_2 ws (windowLo i)) as [w Hw].
  { pose proof (windowLo_le i). lia. }
  exists w. split; [exact Hw |].
  unfold scanBody. rewrite (windowMatches_spec q i Hi).
  rewrite (contextWindow_spec i Hi), Hw.
  destruct (includes _ _); reflexivity.
Qed.

(** With [length ws] units of fuel the loop returns, and every match it
    adds is one the specification describes. *)
Lemma scanLoop_spec q fuel : forall i found,
  (length ws <= fuel + i)%nat ->
  exists added,
    scanLoop fuel ws (toLowerCase q) i found = Returns (found ++ added) /\
    forall m, m ∈ added -> exists j, spec_match ws q j m.
Proof.
  induction fuel as [|fuel IH]; intros i found Hfuel; cbn [scanLoop].
  - destruct (Nat.leb_spec (length ws) i); [ | lia].
    exists []. rewrite app_nil_r. split; [reflexivity |].
    intros m Hm. inversion Hm.
  - destruct (Nat.leb_spec (length ws) i) as [Hge|Hlt].
    + exists []. rewrite app_nil_r. split; [reflexivity |].
      intros m Hm. inversion Hm.
    + destruct (scanBody_spec q i found Hlt) as (w & Hw & ->).
      destruct (windowMatches ws q i) eqn:Hmatch.
      * destruct (IH (i + 5 + 1)%nat
                    (found ++ [{| text := join " " (word <$> spec_window ws i);
                                  startTime := start w |}]))
          as (added & -> & Hadded); [lia |].
        eexists (_ :: added). split.
        { rewrite <- app_assoc. reflexivity. }
        intros m Hm. apply elem_of_cons in Hm as [-> | Hm]; [ | auto].
        exists i. unfold spec_match. cbn.
        rewrite (windowMatches_spec q i Hlt) in Hmatch.
        repeat split; trivial; [apply spec_window_length |].
        exists w. split; [exact Hw | reflexivity].
      * destruct (IH (i + 1)%nat found) as (added & -> & Hadded); [lia |].
        exists added. split; [reflexivity | exact Hadded].
Qed.

Lemma searchWords_spec q :
  exists found, searchWords ws q = Returns found /\
    forall m, m ∈ found -> exists j, spec_match ws q j m.
Proof.
  unfold searchWords.
  destruct (scanLoop_spec q (length ws) 0%nat []) as (added & H & Hall);
    [lia |].
  exists added. split; [exact H | exact Hall].
Qed.
End Scan.

Section Tested.
Import SearchPage.
Variable ws : list TranscriptWord.
Variable q : string.

Lemma testedFrom_done fuel i : (length ws <= i)%nat ->
  testedFrom fuel ws (toLowerCase q) i = [].
Proof.
  intros Hi. destruct fuel; cbn [testedFrom];
    destruct (Nat.leb_spec (length ws) i); trivial; lia.
Qed.

Lemma testedFrom_step fuel i : (i < length ws)%nat ->
  testedFrom (S fuel) ws (toLowerCase q) i =
  i :: testedFrom fuel ws (toLowerCase q)
         (if windowMatches ws q i then i + 6 else i + 1)%nat.
Proof.
  intros Hi. cbn [testedFrom].
  destruct (Nat.leb_spec (length ws) i); [lia |].
  destruct (scanBody_spec ws q i [] Hi) as (w & _ & ->).
  destruct (windowMatches ws q i); f_equal; f_equal; lia.
Qed.

(** Every later part of the sequence of tested indices is itself a run
    of the loop with enough fuel. *)
Lemma testedFrom_suffix fuel : forall i0 pre i rest,
  (length ws <= fuel + i0)%nat ->
  testedFrom fuel ws (toLowerCase q) i0 = pre ++ i :: rest ->
  exists fuel', (length ws <= fuel' + i)%nat /\
    testedFrom fuel' ws (toLowerCase q) i = i :: rest.
Proof.
  induction fuel as [|fuel IH]; intros i0 pre i rest Hfuel Heq.
  - rewrite testedFrom_done in Heq by lia.
    destruct pre; discriminate.
  - destruct (Nat.leb_spec (length ws) i0) as [Hge|Hlt].
    + rewrite testedFrom_done in Heq by lia. destruct pre; discriminate.
    + rewrite (testedFrom_step fuel i0 Hlt) in Heq.
      destruct pre as [|p pre]; cbn in Heq; injection Heq as Hhd Htl.
      * subst i0. exists (S fuel). split; [lia |].
        rewrite (testedFrom_step fuel i Hlt). congruence.
      * eapply (IH _ pre i rest); [ | exact Htl].
        destruct (windowMatches ws q i0); lia.
Qed.

Lemma tested_in_range fuel : forall i0 i,
  i ∈ testedFrom fuel ws (toLowerCase q) i0 -> (i < length ws)%nat.
Proof.
  induction fuel as [|fuel IH]; intros i0 i Hin.
  - cbn in Hin. destruct (length ws <=? i0)%nat; inversion Hin.
  - destruct (Nat.leb_spec (length ws) i0) as [Hge|Hlt].
    + rewrite testedFrom_done in Hin by lia. inversion Hin.
    + rewrite (testedFrom_step fuel i0 Hlt) in Hin.
      apply elem_of_cons in Hin as [-> | Hin]; [exact Hlt | eauto].
Qed.
End Tested.

(** C2, as the code has it: when the window at a tested index [i] matches,
    the body adds 5 to the loop variable and the loop's own increment adds
    1, so the next tested index is [i + 6]; when [i + 6] is past the end
    the scan stops. *)
Theorem scan_skips_to_six_later (ws : list TranscriptWord) (q : string)
    (pre : list nat) (i : nat) (rest : list nat) :
  SearchPage.tested ws q = pre ++ i :: rest ->
  SearchPage.windowMatches ws q i = true ->
  (forall found,
     fst <$> SearchPage.scanBody ws (toLowerCase q) i found =
     Some (i + 5)%nat) /\
  ((i + 6 < length ws)%nat -> exists rest', rest = (i + 6)%nat :: rest') /\
  ((length ws <= i + 6)%nat -> rest = []).
Proof.
  intros Heq Hmatch. unfold SearchPage.tested in Heq.
  assert (i < length ws)%nat as Hi.
  { apply (tested_in_range ws q (length ws) 0%nat). rewrite Heq.
    apply elem_of_app. right. apply elem_of_cons. left. reflexivity. }
  apply (testedFrom_suffix ws q (length ws) 0%nat pre i rest) in Heq
    as (fuel & Hfuel & Hrun); [ | lia].
  destruct fuel as [|fuel]; [lia |].
  rewrite (testedFrom_step ws q fuel i Hi), Hmatch in Hrun.
  injection Hrun as Hrest.
  split; [ | split].
  - intros found.
    destruct (scanBody_spec ws q i found Hi) as (w & _ & ->).
    rewrite Hmatch. reflexivity.
  - intros Hin. destruct fuel as [|fuel]; [lia |].
    rewrite (testedFrom_step ws q fuel (i + 6)%nat Hin) in Hrest.
    eauto.
  - intros Hout. rewrite testedFrom_done in Hrest by lia. congruence.
Qed.

Lemma scan_skips_to_six_later_witness :
  (forall found,
     fst <$> SearchPage.scanBody letters (toLowerCase "a") 0 found =
     Some (0 + 5)%nat) /\
  ((0 + 6 < length letters)%nat ->
   exists rest', [6; 7; 8; 9; 10; 11]%nat = (0 + 6)%nat :: rest') /\
  ((length letters <= 0 + 6)%nat -> [6; 7; 8; 9; 10; 11]%nat = []).
Proof.
  apply (scan_skips_to_six_later letters "a" [] 0%nat [6; 7; 8; 9; 10; 11]%nat);
    reflexivity.
Defined.

(** C2 as stated fails: on the twelve tokens "a" to "l" and the query "a",
    the window at index 0 matches and index 5 is inside the transcript,
    yet the next tested index is 6 and index 5 is never tested. *)
Lemma scan_skips_to_five_later_counterexample :
  SearchPage.tested letters "a" = [0; 6; 7; 8; 9; 10; 11]%nat /\
  SearchPage.windowMatches letters "a" 0 = true /\
  (0 + 5 < length letters)%nat /\
  5%nat ∉ SearchPage.tested letters "a".
Proof.
  split; [reflexivity |]. split; [reflexivity |]. split; [cbn; lia |].
  change (SearchPage.tested letters "a") with [0; 6; 7; 8; 9; 10; 11]%nat.
  rewrite !elem_of_cons, elem_of_nil. lia.
Qed.

(** The matches of a transcript are the ones recorded at the tested
    indices, in the order of the scan. *)
Lemma scanLoop_tested ws q fuel : forall i found,
  (length ws <= fuel + i)%nat ->
  SearchPage.scanLoop fuel ws (toLowerCase q) i found =
  Returns (found ++
           omap (recorded ws (toLowerCase q))
             (SearchPage.testedFrom fuel ws (toLowerCase q) i)).
Proof.
  induction fuel as [|fuel IH]; intros i found Hfuel.
  - cbn. destruct (Nat.leb_spec (length ws) i); [ | lia].
    rewrite app_nil_r. reflexivity.
  - destruct (Nat.leb_spec (length ws) i) as [Hge|Hlt].
    + rewrite testedFrom_done by lia. cbn.
      destruct (Nat.leb_spec (length ws) i); [ | lia].
      rewrite app_nil_r. reflexivity.
    + rewrite (testedFrom_step ws q fuel i Hlt).
      cbn [SearchPage.scanLoop omap list_omap].
      destruct (Nat.leb_spec (length ws) i); [lia |].
      unfold recorded at 1.
      destruct (scanBody_spec ws q i found Hlt) as (w & Hw & ->).
      destruct (scanBody_spec ws q i [] Hlt) as (w' & Hw' & ->).
      assert (w' = w) as -> by congruence.
      destruct (SearchPage.windowMatches ws q i); cbn.
      * rewrite IH by lia. rewrite <- app_assoc.
        replace (i + 5 + 1)%nat with (i + 6)%nat by lia. reflexivity.
      * rewrite IH by lia. reflexivity.
Qed.

Lemma searchWords_tested ws q :
  SearchPage.searchWords ws q =
  Returns (omap (recorded ws (toLowerCase q)) (SearchPage.tested ws q)).
Proof.
  unfold SearchPage.searchWords, SearchPage.tested.
  rewrite scanLoop_tested by lia. reflexivity.
Qed.

(** C6: every match that a search surfaces for a completed transcript has
    as text the single-space join of the token texts from index
    [max(0, i - 5)] to [min(len - 1, i + 5)] included, at most 11 tokens,
    for a token index [i] at which the lower-cased query is a substring of
    the lower-cased text, and as start time the start of the token at
    [max(0, i - 5)]; the test made at an index is this substring test; the
    scan of a transcript always returns; and on the twelve tokens "a" to
    "l", one second apart from 0, the query "a" gives one match, the
    window of tokens 0 to 5, with start time 0. *)
Theorem search_match_is_window :
  (forall getTranscript audioFiles searchQuery results r m,
     SearchPage.performSearch getTranscript audioFiles searchQuery =
       Some results ->
     r ∈ results -> m ∈ SearchPage.matches r ->
     exists file response tr i,
       file ∈ audioFiles /\ AudioFile.status file = Some completed /\
       SearchPage.audioId r = AudioFile.id file /\
       getTranscript (AudioFile.id file) = Some response /\
       status response = completed /\ transcript response = Some tr /\
       spec_match (words tr) searchQuery i m) /\
  (forall ws searchQuery i, (i < length ws)%nat ->
     SearchPage.windowMatches ws searchQuery i =
     includes (toLowerCase (join " " (word <$> spec_window ws i)))
       (toLowerCase searchQuery)) /\
  (forall ws searchQuery,
     exists found, SearchPage.searchWords ws searchQuery = Returns found) /\
  SearchPage.searchWords letters "a" =
    Returns [{| SearchPage.text := "a b c d e f";
                SearchPage.startTime := 0 |}] /\
  spec_window letters 0 = take 6 letters.
Proof.
  split; [ | split; [ | split; [ | split; reflexivity]]].
  - intros getTranscript audioFiles searchQuery results r m Hsearch Hr Hm.
    unfold SearchPage.performSearch in Hsearch.
    destruct (trim_is_empty searchQuery); [discriminate |].
    injection Hsearch as <-.
    apply list_elem_of_omap in Hr as (file & Hfile & Hres).
    apply list_elem_of_filter in Hfile as [Hcompleted Hfile].
    unfold SearchPage.searchFile in Hres.
    destruct (getTranscript (AudioFile.id file)) as [response|] eqn:Hresp;
      [ | discriminate].
    destruct (status response) eqn:Hst; try discriminate.
    destruct (transcript response) as [tr|] eqn:Htr; [ | discriminate].
    destruct (searchWords_spec (words tr) searchQuery) as (found & Hfound & Hall).
    rewrite Hfound in Hres.
    destruct (0 <? length found)%nat; [ | discriminate].
    injection Hres as <-. cbn in Hm.
    apply elem_of_take in Hm as (k & Hk & _).
    apply list_elem_of_lookup_2 in Hk.
    destruct (Hall m Hk) as (i & Hi).
    exists file, response, tr, i. repeat split; trivial; apply Hi.
  - intros ws searchQuery i Hi. apply windowMatches_spec. exact Hi.
  - intros ws searchQuery.
    destruct (searchWords_spec ws searchQuery) as (found & H & _). eauto.
Qed.

Lemma search_match_is_window_witness :
  exists file response tr i,
    file ∈ [lettersFile] /\ AudioFile.status file = Some completed /\
    "audio-1"%string = AudioFile.id file /\
    lettersService (AudioFile.id file) = Some response /\
    status response = completed /\ transcript response = Some tr /\
    spec_match (words tr) "a" i
      {| SearchPage.text := "a b c d e f"; SearchPage.startTime := 0 |}.
Proof.
  apply (proj1 search_match_is_window lettersService [lettersFile] "a"%string
           [ {| SearchPage.audioId := "audio-1";
                SearchPage.audioTitle := "alphabet";
                SearchPage.audioUrl := "/alphabet.mp3";
                SearchPage.audioDuration := Some 12%float;
                SearchPage.audioSize := 1024%float;
                SearchPage.matches :=
                  [{| SearchPage.text := "a b c d e f";
                      SearchPage.startTime := 0 |}] |} ]
           {| SearchPage.audioId := "audio-1";
              SearchPage.audioTitle := "alphabet";
              SearchPage.audioUrl := "/alphabet.mp3";
              SearchPage.audioDuration := Some 12%float;
              SearchPage.audioSize := 1024%float;
              SearchPage.matches :=
                [{| SearchPage.text := "a b c d e f";
                    SearchPage.startTime := 0 |}] |}
           {| SearchPage.text := "a b c d e f"; SearchPage.startTime := 0 |}).
  - vm_compute. reflexivity.
  - apply list_elem_of_here.
  - apply list_elem_of_here.
Defined.

(** ** The transcript view *)

(** The component never throws. *)
Lemma activeWordIndex_returns ws t : exists z, activeWordIndex ws t = Some z.
Proof.
  destruct (activeWordIndex_spec ws t) as [[H _] | (k & H & _)]; eauto.
Qed.

Lemma render_returns p : exists v, TranscriptView.render p = Some v.
Proof.
  unfold TranscriptView.render.
  destruct (activeWordIndex_returns (TranscriptView.words p)
              (TranscriptView.currentTime p)) as [z ->].
  eauto.
Qed.

Lemma render_text_completed p ws a :
  TranscriptView.render p = Some (TranscriptView.TranscriptText ws a) ->
  TranscriptView.status p = completed /\ ws = TranscriptView.words p /\
  ws <> [].
Proof.
  unfold TranscriptView.render.
  destruct (activeWordIndex _ _) as [z|]; [ | discriminate].
  destruct (TranscriptView.status p); cbn; try discriminate.
  destruct (TranscriptView.words p) as [|w l]; cbn; [discriminate |].
  intros [= <- <-]. auto.
Qed.

Lemma shownWords_not_completed p :
  TranscriptView.status p <> completed -> TranscriptView.shownWords p = [].
Proof.
  intros Hst. unfold TranscriptView.shownWords.
  destruct (TranscriptView.render p) as [[| | |ws a]|] eqn:E; trivial.
  apply render_text_completed in E as [E _]. congruence.
Qed.

Lemma retryShown_failed p :
  TranscriptView.retryShown p = true -> TranscriptView.status p = failed.
Proof.
  unfold TranscriptView.retryShown, TranscriptView.render.
  destruct (activeWordIndex _ _) as [z|]; [ | discriminate].
  destruct (TranscriptView.status p); cbn; try discriminate; trivial.
  destruct (length _ =? 0)%nat; discriminate.
Qed.

(** C9: in every state of the player page, hence in every reachable one,
    the transcript view renders the tokens only when the displayed status
    is completed; for the statuses uploaded, processing and failed no
    token is on the screen. *)
Theorem tokens_shown_only_when_completed (s : PlayerPage.State) :
  (forall ws a,
     TranscriptView.render (PlayerPage.viewProps s) =
       Some (TranscriptView.TranscriptText ws a) ->
     PlayerPage.transcriptStatus s = completed) /\
  (PlayerPage.transcriptStatus s = uploaded \/
   PlayerPage.transcriptStatus s = processing \/
   PlayerPage.transcriptStatus s = failed ->
   PlayerPage.visibleWords s = [] /\
   TranscriptView.shownWords (PlayerPage.viewProps s) = []).
Proof.
  split.
  - intros ws a H. apply render_text_completed in H as [H _]. exact H.
  - intros Hst.
    assert (TranscriptView.shownWords (PlayerPage.viewProps s) = []) as H.
    { apply shownWords_not_completed. cbn.
      destruct Hst as [-> | [-> | ->]]; discriminate. }
    split; [ | exact H].
    unfold PlayerPage.visibleWords. destruct (PlayerPage.mounted s); trivial.
    destruct (PlayerPage.render s); trivial.
Qed.

Lemma tokens_shown_only_when_completed_witness :
  PlayerPage.transcriptStatus
    (PlayerPage.run PlayerPage.init
       [PlayerPage.AudioLoaded sampleAudio
          (Some (answer completed (Some lettersTranscript)))]) = completed /\
  (PlayerPage.visibleWords
     (PlayerPage.run PlayerPage.init
        [PlayerPage.AudioLoaded sampleAudio (Some (answer processing None))])
     = [] /\
   TranscriptView.shownWords
     (PlayerPage.viewProps
        (PlayerPage.run PlayerPage.init
           [PlayerPage.AudioLoaded sampleAudio (Some (answer processing None))]))
     = []).
Proof.
  split.
  - apply (proj1 (tokens_shown_only_when_completed
                    (PlayerPage.run PlayerPage.init
                       [PlayerPage.AudioLoaded sampleAudio
                          (Some (answer completed (Some lettersTranscript)))]))
             letters 0).
    reflexivity.
  - apply (proj2 (tokens_shown_only_when_completed
                    (PlayerPage.run PlayerPage.init
                       [PlayerPage.AudioLoaded sampleAudio
                          (Some (answer processing None))]))).
    right. left. reflexivity.
Defined.

(** ** The poller *)

(** The setters of the page around the player leave the timers and the
    transcript as they are. *)
Ltac auth_case :=
  unfold PlayerPage.authChanged, PlayerPage.authEffect;
  cbn [PlayerPage.isAuthenticated PlayerPage.setAuth];
  match goal with
  | |- context [if ?c && ?d then _ else _] => destruct (c && d)
  end;
  [ | match goal with
      | |- context [if ?a then _ else _] => destruct a
      end ].

Ltac drop_shell :=
  repeat match goal with
  | |- ?P (PlayerPage.setLoadingAudio ?b ?x) => change (P x)
  | |- ?P (PlayerPage.setError ?m ?x) => change (P x)
  | |- ?P (PlayerPage.setMounted ?b ?x) => change (P x)
  | |- ?P (PlayerPage.setAuth ?a ?l ?x) => change (P x)
  end.

Section Poller.
Import PlayerPage.

Lemma loadTranscript_timers response s :
  pollIntervalRef (loadTranscript response s).1 = pollIntervalRef s /\
  intervals (loadTranscript response s).1 = intervals s /\
  nextInterval (loadTranscript response s).1 = nextInterval s /\
  inFlight (loadTranscript response s).1 = inFlight s /\
  audio (loadTranscript response s).1 = audio s.
Proof.
  destruct response as [r|]; cbn; [ | auto].
  destruct (transcript r); cbn; auto.
Qed.

Lemma loadTranscript_returns response s :
  (loadTranscript response s).2 = status <$> response.
Proof. destruct response; reflexivity. Qed.

Lemma startPolling_owned s : timers_owned s -> timers_owned (startPolling s).
Proof.
  intros [Hown Hold]. unfold startPolling, timers_owned.
  destruct (pollIntervalRef s) as [h|] eqn:Href; cbn.
  - split.
    + intros h' Hin. apply elem_of_union in Hin as [Hin | Hin].
      * apply elem_of_difference in Hin as [Hin Hne].
        specialize (Hown h' Hin). set_solver.
      * set_solver.
    + intros h' [= <-]. lia.
  - split.
    + intros h' Hin. apply elem_of_union in Hin as [Hin | Hin].
      * specialize (Hown h' Hin). congruence.
      * set_solver.
    + intros h' [= <-]. lia.
Qed.

Lemma stopPolling_owned s : timers_owned s -> timers_owned (stopPolling s).
Proof.
  intros [Hown Hold]. unfold stopPolling, timers_owned.
  destruct (pollIntervalRef s) as [h|] eqn:Href; cbn.
  - split; [ | discriminate].
    intros h' Hin. apply elem_of_difference in Hin as [Hin Hne].
    specialize (Hown h' Hin). set_solver.
  - rewrite Href. split; [exact Hown | discriminate].
Qed.

Lemma timers_owned_ext s s' :
  pollIntervalRef s' = pollIntervalRef s -> intervals s' = intervals s ->
  nextInterval s' = nextInterval s -> timers_owned s -> timers_owned s'.
Proof. unfold timers_owned. intros -> -> ->. trivial. Qed.

Lemma step_owned s e : timers_owned s -> timers_owned (step s e).
Proof.
  intros Hs.
  destruct e as [a response|h|hq response|ok|t| |au lo| |code]; cbn [step].
  - unfold loadAudioFile.
    pose proof (loadTranscript_timers response (setAudio a s))
      as (H1 & H2 & H3 & _).
    destruct (loadTranscript response (setAudio a s)) as [s1 st].
    cbn [fst] in *.
    assert (timers_owned s1) as Hs1
      by (apply (timers_owned_ext s s1); trivial).
    drop_shell.
    destruct st as [[| | |]|]; lazy beta iota; auto using startPolling_owned.
  - destruct (decide (h ∈ intervals s)); trivial.
  - destruct (decide (hq ∈ inFlight s)); trivial. unfold pollAnswered.
    pose proof (loadTranscript_timers response (setInFlight (inFlight s ∖ {[+ hq +]}) s))
      as (H1 & H2 & H3 & _).
    destruct (loadTranscript response (setInFlight (inFlight s ∖ {[+ hq +]}) s)) as [s1 st].
    cbn [fst] in *.
    assert (timers_owned s1) as Hs1
      by (apply (timers_owned_ext s s1); trivial).
    destruct st as [[| | |]|]; lazy beta iota; auto using stopPolling_owned.
  - unfold handleRetryTranscription.
    destruct (audio s); trivial. destruct ok; trivial.
    apply startPolling_owned. exact Hs.
  - exact Hs.
  - drop_shell. unfold cleanup.
    destruct (pollIntervalRef s) as [h|] eqn:Href; [ | exact Hs].
    destruct Hs as [Hown Hold]. split; cbn.
    + intros h' Hin. apply elem_of_difference in Hin as [Hin _]. auto.
    + exact Hold.
  - auth_case; exact Hs.
  - exact Hs.
  - exact Hs.
Qed.

Lemma init_owned : timers_owned init.
Proof. split; cbn; [set_solver | discriminate]. Qed.

Lemma run_owned es : forall s, timers_owned s -> timers_owned (run s es).
Proof.
  induction es as [|e es IH]; intros s Hs; [exact Hs |].
  apply IH, step_owned, Hs.
Qed.

(** A handle that is cleared stays cleared: handles are not given out
    twice. *)
Lemma startPolling_cleared h s : cleared h s -> cleared h (startPolling s).
Proof.
  intros [Hout Hold]. unfold startPolling, cleared.
  destruct (pollIntervalRef s) as [h0|]; cbn; split;
    try lia; set_solver by lia.
Qed.

Lemma stopPolling_cleared h s : cleared h s -> cleared h (stopPolling s).
Proof.
  intros [Hout Hold]. unfold stopPolling, cleared.
  destruct (pollIntervalRef s) as [h0|]; cbn; split; trivial. set_solver.
Qed.

Lemma cleared_ext h s s' :
  intervals s' = intervals s -> nextInterval s' = nextInterval s ->
  cleared h s -> cleared h s'.
Proof. unfold cleared. intros -> ->. trivial. Qed.

Lemma step_cleared h s e : cleared h s -> cleared h (step s e).
Proof.
  intros Hs.
  destruct e as [a response|h'|hq response|ok|t| |au lo| |code]; cbn [step].
  - unfold loadAudioFile.
    pose proof (loadTranscript_timers response (setAudio a s))
      as (_ & H2 & H3 & _).
    destruct (loadTranscript response (setAudio a s)) as [s1 st].
    cbn [fst] in *.
    assert (cleared h s1) as Hs1 by (apply (cleared_ext h s s1); trivial).
    drop_shell.
    destruct st as [[| | |]|]; lazy beta iota; auto using startPolling_cleared.
  - destruct (decide (h' ∈ intervals s)); trivial.
  - destruct (decide (hq ∈ inFlight s)); trivial. unfold pollAnswered.
    pose proof (loadTranscript_timers response (setInFlight (inFlight s ∖ {[+ hq +]}) s))
      as (_ & H2 & H3 & _).
    destruct (loadTranscript response (setInFlight (inFlight s ∖ {[+ hq +]}) s)) as [s1 st].
    cbn [fst] in *.
    assert (cleared h s1) as Hs1 by (apply (cleared_ext h s s1); trivial).
    destruct st as [[| | |]|]; lazy beta iota; auto using stopPolling_cleared.
  - unfold handleRetryTranscription.
    destruct (audio s); trivial. destruct ok; trivial.
    apply startPolling_cleared. exact Hs.
  - exact Hs.
  - drop_shell. unfold cleanup.
    destruct (pollIntervalRef s) as [h0|]; [ | exact Hs].
    destruct Hs as [Hout Hold]. split; cbn; trivial. set_solver.
  - auth_case; exact Hs.
  - exact Hs.
  - exact Hs.
Qed.

(** The firings of a cleared interval change nothing, whatever else
    happens. *)
Lemma run_cleared h es : forall s, cleared h s ->
  run s es = run s (filter (fun e => fires h e = false) es).
Proof.
  induction es as [|e es IH]; intros s Hs; [reflexivity |].
  rewrite filter_cons. destruct (decide (fires h e = false)) as [Hf|Hf].
  - cbn. apply IH, step_cleared, Hs.
  - destruct e as [| h' | | | | | | |]; cbn in Hf; try congruence.
    destruct (bool_decide_reflect (h' = h)) as [->|]; [ | congruence].
    cbn [run foldl step].
    destruct (decide (h ∈ intervals s)) as [Hin|_].
    + destruct Hs as [Hout _]. contradiction.
    + apply IH, Hs.
Qed.
End Poller.

Section PollerClaims.
Import PlayerPage.

Lemma stopPolling_clears h s :
  pollIntervalRef s = Some h -> (h < nextInterval s)%positive ->
  cleared h (stopPolling s).
Proof.
  intros Href Hold. unfold stopPolling, cleared. rewrite Href. cbn.
  split; [set_solver | exact Hold].
Qed.

Lemma startPolling_clears h s :
  pollIntervalRef s = Some h -> (h < nextInterval s)%positive ->
  cleared h (startPolling s).
Proof.
  intros Href Hold. unfold startPolling, cleared. rewrite Href. cbn.
  split; [ | lia].
  intros Hin. apply elem_of_union in Hin as [Hin | Hin].
  - apply elem_of_difference in Hin as [_ Hne]. set_solver.
  - apply elem_of_singleton in Hin. lia.
Qed.

Lemma cleanup_clears h s :
  pollIntervalRef s = Some h -> (h < nextInterval s)%positive ->
  cleared h (cleanup s).
Proof.
  intros Href Hold. unfold cleanup, cleared. rewrite Href. cbn.
  split; [set_solver | exact Hold].
Qed.

Lemma ends_poll_clears s e h :
  timers_owned s -> h ∈ intervals s -> ends_poll s e ->
  cleared h (step s e).
Proof.
  intros [Hown Hold] Hin Hend.
  pose proof (Hown h Hin) as Href. pose proof (Hold h Href) as Hlt.
  destruct e as [a [r|]|h'|hq [r|]|[|]|t| |au lo| |code];
    cbn in Hend; try contradiction; cbn [step].
  - unfold loadAudioFile.
    pose proof (loadTranscript_timers (Some r) (setAudio a s))
      as (H1 & _ & H3 & _).
    pose proof (loadTranscript_returns (Some r) (setAudio a s)) as H4.
    destruct (loadTranscript (Some r) (setAudio a s)) as [s1 st].
    cbn in H1, H3, H4. subst st. drop_shell.
    destruct Hend as [-> | ->]; apply startPolling_clears; congruence.
  - destruct Hend as [Hfl Hterm].
    destruct (decide (hq ∈ inFlight s)); [ | contradiction]. unfold pollAnswered.
    pose proof (loadTranscript_timers (Some r) (setInFlight (inFlight s ∖ {[+ hq +]}) s))
      as (H1 & _ & H3 & _).
    pose proof (loadTranscript_returns (Some r) (setInFlight (inFlight s ∖ {[+ hq +]}) s)) as H4.
    destruct (loadTranscript (Some r) (setInFlight (inFlight s ∖ {[+ hq +]}) s)) as [s1 st].
    cbn in H1, H3, H4. subst st.
    destruct Hterm as [-> | ->]; apply stopPolling_clears; congruence.
  - unfold handleRetryTranscription.
    destruct (audio s); [ | contradiction].
    apply startPolling_clears; assumption.
  - drop_shell. apply cleanup_clears; assumption.
Qed.

Lemma timers_keep_inFlight s :
  inFlight (startPolling s) = inFlight s /\
  inFlight (stopPolling s) = inFlight s /\
  inFlight (cleanup s) = inFlight s.
Proof.
  unfold startPolling, stopPolling, cleanup.
  destruct (pollIntervalRef s); cbn; auto.
Qed.

(** Nothing sends a request under a cleared handle. *)
Lemma step_quiet h s e : quiet h s -> quiet h (step s e).
Proof.
  intros [Hc Hq]. split; [apply step_cleared, Hc |].
  destruct (timers_keep_inFlight s) as (Hstart & Hstop & Hclean).
  destruct e as [a response|h'|hq response|ok|t| |au lo| |code]; cbn [step].
  - unfold loadAudioFile.
    pose proof (loadTranscript_timers response (setAudio a s))
      as (_ & _ & _ & H & _).
    destruct (loadTranscript response (setAudio a s)) as [s1 st].
    cbn in H.
    destruct (timers_keep_inFlight s1) as (Hstart1 & _).
    change (inFlight (setLoadingAudio false ?x)) with (inFlight x).
    destruct st as [[| | |]|]; lazy beta iota; congruence.
  - destruct (decide (h' ∈ intervals s)) as [Hin|]; [ | exact Hq].
    cbn. destruct Hc as [Hout _].
    assert (h <> h') by congruence. multiset_solver.
  - destruct (decide (hq ∈ inFlight s)); [ | exact Hq].
    unfold pollAnswered.
    pose proof (loadTranscript_timers response
                  (setInFlight (inFlight s ∖ {[+ hq +]}) s))
      as (_ & _ & _ & H & _).
    destruct (loadTranscript response
                (setInFlight (inFlight s ∖ {[+ hq +]}) s)) as [s1 st].
    cbn in H.
    destruct (timers_keep_inFlight s1) as (_ & Hstop1 & _).
    assert (h ∉ inFlight s1) as Hq1 by (rewrite H; multiset_solver).
    destruct st as [[| | |]|]; lazy beta iota; congruence.
  - unfold handleRetryTranscription.
    destruct (audio s); [ | exact Hq]. destruct ok; [ | exact Hq].
    destruct (timers_keep_inFlight
                (setTranscriptWords [] (setTranscriptStatus processing s)))
      as (-> & _).
    exact Hq.
  - exact Hq.
  - change (inFlight (setMounted false ?x)) with (inFlight x). congruence.
  - auth_case; exact Hq.
  - exact Hq.
  - exact Hq.
Qed.

(** The events of a poll that is quiet change nothing, whatever else
    happens. *)
Lemma run_quiet h es : forall s, quiet h s ->
  run s es = run s (filter (fun e => of_poll h e = false) es).
Proof.
  induction es as [|e es IH]; intros s Hs; [reflexivity |].
  rewrite filter_cons. destruct (decide (of_poll h e = false)) as [Hf|Hf].
  - cbn. apply IH, step_quiet, Hs.
  - assert (step s e = s) as Hnoop.
    { destruct Hs as [[Hout _] Hq].
      destruct e as [| h' | h' r | | | | | |]; cbn in Hf; try congruence;
        destruct (bool_decide_reflect (h' = h)) as [->|]; try congruence;
        cbn [step].
      - destruct (decide (h ∈ intervals s)); [contradiction | reflexivity].
      - destruct (decide (h ∈ inFlight s)); [contradiction | reflexivity]. }
    cbn [run foldl]. rewrite Hnoop. apply IH, Hs.
Qed.

(** Under a cleared handle no request is sent any more: the number of
    its requests in flight does not grow. *)
Lemma step_in_flight h s e : cleared h s ->
  (multiplicity h (inFlight (step s e)) <= multiplicity h (inFlight s))%nat.
Proof.
  intros [Hout _].
  destruct (timers_keep_inFlight s) as (Hstart & Hstop & Hclean).
  destruct e as [a response|h'|hq response|ok|t| |au lo| |code]; cbn [step].
  - unfold loadAudioFile.
    pose proof (loadTranscript_timers response (setAudio a s))
      as (_ & _ & _ & H & _).
    destruct (loadTranscript response (setAudio a s)) as [s1 st].
    cbn in H.
    destruct (timers_keep_inFlight s1) as (Hstart1 & _).
    change (inFlight (setLoadingAudio false ?x)) with (inFlight x).
    destruct st as [[| | |]|]; lazy beta iota;
      rewrite ?Hstart1, H; reflexivity.
  - destruct (decide (h' ∈ intervals s)) as [Hin|]; [ | reflexivity].
    cbn. rewrite multiplicity_disj_union.
    rewrite multiplicity_singleton_ne by congruence. lia.
  - destruct (decide (hq ∈ inFlight s)); [ | reflexivity].
    unfold pollAnswered.
    pose proof (loadTranscript_timers response
                  (setInFlight (inFlight s ∖ {[+ hq +]}) s))
      as (_ & _ & _ & H & _).
    destruct (loadTranscript response
                (setInFlight (inFlight s ∖ {[+ hq +]}) s)) as [s1 st].
    cbn in H.
    destruct (timers_keep_inFlight s1) as (_ & Hstop1 & _).
    assert (multiplicity h (inFlight s1) <= multiplicity h (inFlight s))%nat
      as Hle by (rewrite H, multiplicity_difference; lia).
    destruct st as [[| | |]|]; lazy beta iota; rewrite ?Hstop1; exact Hle.
  - unfold handleRetryTranscription.
    destruct (audio s); [ | reflexivity]. destruct ok; [ | reflexivity].
    destruct (timers_keep_inFlight
                (setTranscriptWords [] (setTranscriptStatus processing s)))
      as (-> & _).
    reflexivity.
  - reflexivity.
  - change (inFlight (setMounted false ?x)) with (inFlight x).
    rewrite Hclean. reflexivity.
  - auth_case; reflexivity.
  - reflexivity.
  - reflexivity.
Qed.

Lemma run_in_flight h es : forall s, cleared h s ->
  cleared h (run s es) /\
  (multiplicity h (inFlight (run s es)) <= multiplicity h (inFlight s))%nat.
Proof.
  induction es as [|e es IH]; intros s Hs; [split; [exact Hs | reflexivity] |].
  destruct (IH (step s e) (step_cleared h s e Hs)) as [Hc Hle].
  split; [exact Hc |].
  change (run s (e :: es)) with (run (step s e) es).
  pose proof (step_in_flight h s e Hs). lia.
Qed.

Lemma startPolling_status s :
  transcriptStatus (startPolling s) = transcriptStatus s /\
  transcriptWords (startPolling s) = transcriptWords s /\
  audio (startPolling s) = audio s.
Proof. unfold startPolling. destruct (pollIntervalRef s); cbn; auto. Qed.

Lemma stopPolling_status s :
  transcriptStatus (stopPolling s) = transcriptStatus s /\
  transcriptWords (stopPolling s) = transcriptWords s /\
  audio (stopPolling s) = audio s.
Proof. unfold stopPolling. destruct (pollIntervalRef s); cbn; auto. Qed.

Lemma loadTranscript_status response s :
  transcriptStatus (loadTranscript response s).1 =
  from_option status (transcriptStatus s) response.
Proof.
  destruct response as [r|]; cbn; trivial. destruct (transcript r); trivial.
Qed.

(** The status after an event: the observed one when the event applies
    an observation, processing after a retry that succeeded, unchanged
    otherwise. *)
Lemma step_status s e :
  transcriptStatus (step s e) =
  match observed s e with
  | Some r => status r
  | None =>
      match e, audio s with
      | RetryAnswered true, Some _ => processing
      | _, _ => transcriptStatus s
      end
  end.
Proof.
  destruct e as [a response|h|hq response|ok|t| |au lo| |code];
    cbn [step observed].
  - unfold loadAudioFile.
    pose proof (loadTranscript_status response (setAudio a s)) as H.
    destruct (loadTranscript response (setAudio a s)) as [s1 st].
    cbn [fst] in H.
    change (transcriptStatus (setLoadingAudio false ?x))
      with (transcriptStatus x).
    assert (transcriptStatus
              match st with
              | Some uploaded | Some processing => startPolling s1
              | _ => s1
              end = transcriptStatus s1) as ->.
    { destruct st as [[| | |]|]; trivial; apply startPolling_status. }
    rewrite H. destruct response; reflexivity.
  - destruct (decide (h ∈ intervals s)); reflexivity.
  - destruct (decide (hq ∈ inFlight s)); [ | reflexivity]. unfold pollAnswered.
    pose proof (loadTranscript_status response (setInFlight (inFlight s ∖ {[+ hq +]}) s)) as H.
    destruct (loadTranscript response (setInFlight (inFlight s ∖ {[+ hq +]}) s)) as [s1 st].
    cbn [fst] in H.
    assert (transcriptStatus
              match st with
              | Some completed | Some failed => stopPolling s1
              | _ => s1
              end = transcriptStatus s1) as ->.
    { destruct st as [[| | |]|]; trivial; apply stopPolling_status. }
    rewrite H. destruct response; reflexivity.
  - unfold handleRetryTranscription.
    destruct (audio s); [ | destruct ok; reflexivity].
    destruct ok; [ | reflexivity].
    destruct (startPolling_status
                (setTranscriptWords [] (setTranscriptStatus processing s)))
      as [-> _].
    reflexivity.
  - reflexivity.
  - unfold cleanup. destruct (pollIntervalRef s); reflexivity.
  - auth_case; reflexivity.
  - reflexivity.
  - reflexivity.
Qed.

(** C8, as the code has it: in a reachable state in which the interval
    [h] of a poll is set, once a tick observes a terminal status, or the
    page is torn down, or a new [startPolling] supersedes the poll, the
    interval [h] is cleared and is never set again; from then on its
    firings change nothing, whatever else happens, and the poll sends no
    request any more.  The requests that it sent before are not
    cancelled: the answer to one that is in flight is applied when it
    arrives, and there are never more of them than were in flight when
    the poll ended; when none was in flight, nothing of the poll is
    applied any more. *)
Theorem ended_poll_never_ticks (es : list Event) (h : TimerId) (e : Event)
    (later : list Event) :
  h ∈ intervals (run init es) -> ends_poll (run init es) e ->
  (h ∉ intervals (step (run init es) e)) /\
  (h ∉ intervals (run (step (run init es) e) later)) /\
  run (step (run init es) e) later =
    run (step (run init es) e) (filter (fun e' => fires h e' = false) later) /\
  (multiplicity h (inFlight (run (step (run init es) e) later)) <=
   multiplicity h (inFlight (step (run init es) e)))%nat /\
  (forall r, h ∈ inFlight (run (step (run init es) e) later) ->
     transcriptStatus
       (step (run (step (run init es) e) later) (PollAnswered h (Some r))) =
     status r) /\
  (h ∉ inFlight (step (run init es) e) ->
   run (step (run init es) e) later =
     run (step (run init es) e)
       (filter (fun e' => of_poll h e' = false) later)).
Proof.
  intros Hin Hend.
  assert (cleared h (step (run init es) e)) as Hc.
  { apply ends_poll_clears; trivial. apply run_owned, init_owned. }
  destruct (run_in_flight h later _ Hc) as [Hc' Hle].
  split; [apply Hc |]. split; [apply Hc' |].
  split; [apply run_cleared, Hc |]. split; [exact Hle |]. split.
  - intros r Hr. rewrite step_status. cbn [observed].
    destruct (decide (h ∈ inFlight (run (step (run init es) e) later)));
      [reflexivity | contradiction].
  - intros Hq. apply run_quiet. split; assumption.
Qed.

Lemma observed_carried s e r : observed s e = Some r -> carried e = Some r.
Proof.
  destruct e; cbn; try discriminate; trivial.
  destruct (decide (_ ∈ inFlight s)); [trivial | discriminate].
Qed.

Lemma run_status_not_completed es : forall s,
  transcriptStatus s <> completed ->
  (forall e r, e ∈ es -> carried e = Some r -> status r <> completed) ->
  transcriptStatus (run s es) <> completed.
Proof.
  induction es as [|e es IH]; intros s Hs Hes; [exact Hs |].
  cbn. apply IH.
  - rewrite step_status.
    destruct (observed s e) as [r|] eqn:Hobs.
    + apply (Hes e r); [apply list_elem_of_here |].
      apply (observed_carried s). exact Hobs.
    + destruct e as [| | |[|]| | | | |]; trivial.
      destruct (audio s); [discriminate | exact Hs].
  - intros e' r Hin. apply Hes. apply list_elem_of_further. exact Hin.
Qed.

(** What a retry that succeeded leaves: the status processing and no
    token. *)
Lemma retry_step s : audio s <> None ->
  transcriptStatus (step s (RetryAnswered true)) = processing /\
  transcriptWords (step s (RetryAnswered true)) = [].
Proof.
  intros Ha. cbn. unfold handleRetryTranscription.
  destruct (audio s); [ | contradiction].
  destruct (startPolling_status
              (setTranscriptWords [] (setTranscriptStatus processing s)))
    as (-> & -> & _).
  split; reflexivity.
Qed.

Lemma visibleWords_not_completed s :
  transcriptStatus s <> completed -> visibleWords s = [].
Proof.
  intros Hs. unfold visibleWords. destruct (mounted s); trivial.
  destruct (render s); trivial.
  apply shownWords_not_completed. exact Hs.
Qed.

(** C7: after a retry that succeeded, the displayed status is processing
    and the token sequence of the page is empty; and as long as no
    observation with status completed arrives, no token is on the
    screen, whatever else happens. *)
Theorem retry_resets_tokens (s : State) (es : list Event) :
  audio s <> None ->
  (forall e r, e ∈ es -> carried e = Some r -> status r <> completed) ->
  transcriptStatus (step s (RetryAnswered true)) = processing /\
  transcriptWords (step s (RetryAnswered true)) = [] /\
  visibleWords (step s (RetryAnswered true)) = [] /\
  visibleWords (run (step s (RetryAnswered true)) es) = [].
Proof.
  intros Ha Hes. destruct (retry_step s Ha) as [Hp Hw].
  split; [exact Hp |]. split; [exact Hw |]. split.
  - apply visibleWords_not_completed. rewrite Hp. discriminate.
  - apply visibleWords_not_completed, run_status_not_completed; trivial.
    rewrite Hp. discriminate.
Qed.

End PollerClaims.

Lemma ended_poll_never_ticks_witness :
  (1%positive ∉
     PlayerPage.intervals
       (PlayerPage.step (PlayerPage.run PlayerPage.init firstTickSent)
          (PlayerPage.PollAnswered 1%positive
             (Some (answer completed (Some lettersTranscript)))))) /\
  PlayerPage.run
    (PlayerPage.step (PlayerPage.run PlayerPage.init firstTickSent)
       (PlayerPage.PollAnswered 1%positive
          (Some (answer completed (Some lettersTranscript)))))
    [PlayerPage.IntervalFires 1%positive;
     PlayerPage.PollAnswered 1%positive (Some (answer processing None))] =
  PlayerPage.run
    (PlayerPage.step (PlayerPage.run PlayerPage.init firstTickSent)
       (PlayerPage.PollAnswered 1%positive
          (Some (answer completed (Some lettersTranscript)))))
    (filter (fun e' => PlayerPage.of_poll 1%positive e' = false)
       [PlayerPage.IntervalFires 1%positive;
        PlayerPage.PollAnswered 1%positive (Some (answer processing None))]).
Proof.
  destruct (ended_poll_never_ticks firstTickSent 1%positive
              (PlayerPage.PollAnswered 1%positive
                 (Some (answer completed (Some lettersTranscript))))
              [PlayerPage.IntervalFires 1%positive;
               PlayerPage.PollAnswered 1%positive
                 (Some (answer processing None))])
    as (Hcleared & _ & _ & _ & _ & Hquiet).
  - apply elem_of_union_r, elem_of_singleton. reflexivity.
  - split; [ | left; reflexivity].
    apply elem_of_multiplicity. vm_compute. lia.
  - split; [exact Hcleared |]. apply Hquiet.
    intros Hin. apply elem_of_multiplicity in Hin. vm_compute in Hin. lia.
Defined.

Lemma retry_resets_tokens_witness :
  PlayerPage.transcriptStatus
    (PlayerPage.step (loadedWith failed None) (PlayerPage.RetryAnswered true))
    = processing /\
  PlayerPage.transcriptWords
    (PlayerPage.step (loadedWith failed None) (PlayerPage.RetryAnswered true))
    = [] /\
  PlayerPage.visibleWords
    (PlayerPage.step (loadedWith failed None) (PlayerPage.RetryAnswered true))
    = [] /\
  PlayerPage.visibleWords
    (PlayerPage.run
       (PlayerPage.step (loadedWith failed None) (PlayerPage.RetryAnswered true))
       [PlayerPage.IntervalFires 1%positive;
        PlayerPage.PollAnswered 1%positive (Some (answer processing None))]) = [].
Proof.
  apply (retry_resets_tokens (loadedWith failed None)
           [PlayerPage.IntervalFires 1%positive;
            PlayerPage.PollAnswered 1%positive (Some (answer processing None))]).
  - discriminate.
  - intros e r Hin Hr.
    apply elem_of_cons in Hin as [-> | Hin]; [discriminate |].
    apply list_elem_of_singleton in Hin as ->.
    injection Hr as <-. discriminate.
Defined.

(** The token sequence held by the page after an event. *)
Lemma step_words (s : PlayerPage.State) (e : PlayerPage.Event) :
  PlayerPage.transcriptWords (PlayerPage.step s e) =
  match PlayerPage.observed s e with
  | Some r => from_option words (PlayerPage.transcriptWords s) (transcript r)
  | None =>
      match e, PlayerPage.audio s with
      | PlayerPage.RetryAnswered true, Some _ => []
      | _, _ => PlayerPage.transcriptWords s
      end
  end.
Proof.
  assert (forall response s0,
            PlayerPage.transcriptWords
              (PlayerPage.loadTranscript response s0).1 =
            match response with
            | Some r =>
                from_option words (PlayerPage.transcriptWords s0) (transcript r)
            | None => PlayerPage.transcriptWords s0
            end) as Hload.
  { intros [r|] s0; cbn; trivial. destruct (transcript r); reflexivity. }
  destruct e as [a response|h|hq response|ok|t| |au lo| |code];
    cbn [PlayerPage.step PlayerPage.observed].
  - unfold PlayerPage.loadAudioFile.
    pose proof (Hload response (PlayerPage.setAudio a s)) as H.
    destruct (PlayerPage.loadTranscript response (PlayerPage.setAudio a s))
      as [s1 st].
    cbn [fst] in H.
    change (PlayerPage.transcriptWords (PlayerPage.setLoadingAudio false ?x))
      with (PlayerPage.transcriptWords x).
    assert (PlayerPage.transcriptWords
              match st with
              | Some uploaded | Some processing => PlayerPage.startPolling s1
              | _ => s1
              end = PlayerPage.transcriptWords s1) as ->.
    { destruct st as [[| | |]|]; trivial; apply startPolling_status. }
    rewrite H. destruct response; reflexivity.
  - destruct (decide (h ∈ PlayerPage.intervals s)); reflexivity.
  - destruct (decide (hq ∈ PlayerPage.inFlight s)); [ | reflexivity].
    unfold PlayerPage.pollAnswered.
    pose proof (Hload response (PlayerPage.setInFlight (PlayerPage.inFlight s ∖ {[+ hq +]}) s)) as H.
    destruct (PlayerPage.loadTranscript response (PlayerPage.setInFlight (PlayerPage.inFlight s ∖ {[+ hq +]}) s))
      as [s1 st].
    cbn [fst] in H.
    assert (PlayerPage.transcriptWords
              match st with
              | Some completed | Some failed => PlayerPage.stopPolling s1
              | _ => s1
              end = PlayerPage.transcriptWords s1) as ->.
    { destruct st as [[| | |]|]; trivial; apply stopPolling_status. }
    rewrite H. destruct response; reflexivity.
  - unfold PlayerPage.handleRetryTranscription.
    destruct (PlayerPage.audio s); [ | destruct ok; reflexivity].
    destruct ok; [ | reflexivity].
    destruct (startPolling_status
                (PlayerPage.setTranscriptWords []
                   (PlayerPage.setTranscriptStatus processing s)))
      as (_ & -> & _).
    reflexivity.
  - reflexivity.
  - unfold PlayerPage.cleanup.
    destruct (PlayerPage.pollIntervalRef s); reflexivity.
  - auth_case; reflexivity.
  - reflexivity.
  - reflexivity.
Qed.

(** Under the contract of the transcript service, a transcript only with
    the status completed, the token sequence held by the page also stays
    empty after a retry until a completed observation arrives. *)
Lemma retry_words_stay_empty (s : PlayerPage.State)
    (es : list PlayerPage.Event) :
  PlayerPage.audio s <> None ->
  (forall e r, e ∈ es -> PlayerPage.carried e = Some r ->
     status r <> completed /\
     (transcript r <> None -> status r = completed)) ->
  PlayerPage.transcriptWords
    (PlayerPage.run (PlayerPage.step s (PlayerPage.RetryAnswered true)) es)
  = [].
Proof.
  intros Ha Hes.
  destruct (retry_step s Ha) as [_ Hw].
  revert Hw Hes. generalize (PlayerPage.step s (PlayerPage.RetryAnswered true)).
  clear s Ha. induction es as [|e es IH]; intros s Hw Hes; [exact Hw |].
  cbn. apply IH.
  - rewrite step_words.
    destruct (PlayerPage.observed s e) as [r|] eqn:Hobs.
    + apply observed_carried in Hobs.
      destruct (Hes e r (list_elem_of_here _ _) Hobs) as [Hn Hc].
      destruct (transcript r); [ | exact Hw].
      exfalso. apply Hn, Hc. discriminate.
    + destruct e as [| | |[|]| | | | |]; trivial.
      destruct (PlayerPage.audio s); trivial.
  - intros e' r Hin. apply Hes. apply list_elem_of_further. exact Hin.
Qed.

(** ** The status of the page *)

(** C3, as the code has it: the displayed status is a passive mirror.  An
    event that applies an observation, the load of the page or the answer
    to a poll request, sets the status to the observed one, whatever the
    status was; an event that applies none leaves the status as it is,
    except a retry that succeeded, which sets processing; and the view
    shows the Retry button only when the status is failed. *)
Theorem status_mirrors_observation (s : PlayerPage.State)
    (e : PlayerPage.Event) :
  (forall r, PlayerPage.observed s e = Some r ->
     PlayerPage.transcriptStatus (PlayerPage.step s e) = status r) /\
  (PlayerPage.observed s e = None ->
     PlayerPage.transcriptStatus (PlayerPage.step s e) =
       PlayerPage.transcriptStatus s \/
     (e = PlayerPage.RetryAnswered true /\ PlayerPage.audio s <> None /\
      PlayerPage.transcriptStatus (PlayerPage.step s e) = processing)) /\
  (TranscriptView.retryShown (PlayerPage.viewProps s) = true ->
     PlayerPage.transcriptStatus s = failed).
Proof.
  split; [ | split].
  - intros r Hobs. rewrite step_status, Hobs. reflexivity.
  - intros Hobs. rewrite step_status, Hobs.
    destruct e as [| | |[|]| | | | |]; auto.
    destruct (PlayerPage.audio s);
      [right; repeat split; trivial; discriminate | left; reflexivity].
  - intros H. apply retryShown_failed in H. exact H.
Qed.

Lemma status_mirrors_observation_witness :
  PlayerPage.transcriptStatus
    (PlayerPage.step PlayerPage.init
       (PlayerPage.AudioLoaded sampleAudio
          (Some (answer failed None)))) = status (answer failed None) /\
  PlayerPage.transcriptStatus (loadedWith failed None) = failed.
Proof.
  split.
  - apply (proj1 (status_mirrors_observation PlayerPage.init
                    (PlayerPage.AudioLoaded sampleAudio
                       (Some (answer failed None))))
             (answer failed None)).
    reflexivity.
  - apply (proj2 (proj2 (status_mirrors_observation
                           (loadedWith failed None) PlayerPage.Unmount))).
    reflexivity.
Defined.

(** C3 as stated fails: the page starts in the status uploaded, and the
    load of a file whose transcript is ready takes it to completed in one
    step; so does the first poll answer for a file that was still
    uploaded when the page loaded, and a failed answer takes it from
    uploaded to failed. *)
Lemma status_transitions_counterexample :
  PlayerPage.transcriptStatus PlayerPage.init = uploaded /\
  PlayerPage.transcriptStatus
    (PlayerPage.step PlayerPage.init
       (PlayerPage.AudioLoaded sampleAudio
          (Some (answer completed (Some lettersTranscript))))) = completed /\
  PlayerPage.transcriptStatus
    (PlayerPage.run PlayerPage.init
       [PlayerPage.AudioLoaded sampleAudio (Some (answer uploaded None));
        PlayerPage.IntervalFires 1%positive]) = uploaded /\
  PlayerPage.transcriptStatus
    (PlayerPage.run PlayerPage.init
       [PlayerPage.AudioLoaded sampleAudio (Some (answer uploaded None));
        PlayerPage.IntervalFires 1%positive;
        PlayerPage.PollAnswered 1%positive
          (Some (answer completed (Some lettersTranscript)))]) = completed /\
  PlayerPage.transcriptStatus
    (PlayerPage.run PlayerPage.init
       [PlayerPage.AudioLoaded sampleAudio (Some (answer uploaded None));
        PlayerPage.IntervalFires 1%positive;
        PlayerPage.PollAnswered 1%positive (Some (answer failed None))]) = failed.
Proof. repeat split; vm_compute; reflexivity. Qed.

(** ** Stopping a poll *)




(** C8 as stated fails for the answers that are under way.  The interval
    fires twice before the first answer arrives; the first answer
    reports completed, so the interval is cleared and the tokens are on
    the screen; the second answer, of the request that was sent first and
    still reports processing, is applied all the same: the status goes
    back to processing and the tokens leave the screen, with no poll
    left to bring them back. *)
Lemma ended_poll_answer_applied_counterexample :
  PlayerPage.intervals
    (PlayerPage.run PlayerPage.init
       (firstTickSent ++
        [PlayerPage.IntervalFires 1%positive;
         PlayerPage.PollAnswered 1%positive
           (Some (answer completed (Some lettersTranscript)))])) = ∅ /\
  PlayerPage.transcriptStatus
    (PlayerPage.run PlayerPage.init
       (firstTickSent ++
        [PlayerPage.IntervalFires 1%positive;
         PlayerPage.PollAnswered 1%positive
           (Some (answer completed (Some lettersTranscript)))])) = completed /\
  PlayerPage.visibleWords
    (PlayerPage.run PlayerPage.init
       (firstTickSent ++
        [PlayerPage.IntervalFires 1%positive;
         PlayerPage.PollAnswered 1%positive
           (Some (answer completed (Some lettersTranscript)))])) = letters /\
  PlayerPage.transcriptStatus
    (PlayerPage.run PlayerPage.init
       (firstTickSent ++
        [PlayerPage.IntervalFires 1%positive;
         PlayerPage.PollAnswered 1%positive
           (Some (answer completed (Some lettersTranscript)));
         PlayerPage.PollAnswered 1%positive
           (Some (answer processing None))])) = processing /\
  PlayerPage.visibleWords
    (PlayerPage.run PlayerPage.init
       (firstTickSent ++
        [PlayerPage.IntervalFires 1%positive;
         PlayerPage.PollAnswered 1%positive
           (Some (answer completed (Some lettersTranscript)));
         PlayerPage.PollAnswered 1%positive
           (Some (answer processing None))])) = [].
Proof. repeat split; vm_compute; reflexivity. Qed.

(** ** Upload of a batch *)

Lemma imap_keeps_file (g : nat -> UploadingFile.t -> UploadingFile.t)
    (l : list UploadingFile.t) :
  (forall i x, UploadingFile.file (g i x) = UploadingFile.file x) ->
  UploadingFile.file <$> imap g l = UploadingFile.file <$> l.
Proof.
  revert g. induction l as [|x l IH]; intros g Hg; [reflexivity |].
  cbn. rewrite Hg. f_equal. apply IH. intros i y. apply Hg.
Qed.

Lemma imap_file (g : nat -> File.t -> UploadingFile.t) (l : list File.t) :
  (forall i x, UploadingFile.file (g i x) = x) ->
  UploadingFile.file <$> imap g l = l.
Proof.
  revert g. induction l as [|x l IH]; intros g Hg; [reflexivity |].
  cbn. rewrite Hg. f_equal. apply IH. intros i y. apply Hg.
Qed.

Lemma newUploadingFiles_file uuidv4 files :
  UploadingFile.file <$> HomePage.newUploadingFiles uuidv4 files = files.
Proof. apply imap_file. reflexivity. Qed.

Lemma onProgress_keeps_file fileIndex progress prev :
  UploadingFile.file <$> HomePage.onProgress fileIndex progress prev =
  UploadingFile.file <$> prev.
Proof.
  unfold HomePage.onProgress. apply imap_keeps_file.
  intros j x. destruct (j =? fileIndex)%nat; reflexivity.
Qed.

(** The progress callback and what happens to the notification keep the
    file of every entry of the upload list, and the library. *)
Lemma keepsUploadList_step s e :
  HomePage.keepsUploadList e = true ->
  UploadingFile.file <$> HomePage.uploadingFiles (HomePage.step s e) =
    UploadingFile.file <$> HomePage.uploadingFiles s /\
  HomePage.audioFiles (HomePage.step s e) = HomePage.audioFiles s.
Proof.
  destruct e as [| fileIndex progress | | | |]; try discriminate; intros _;
    cbn [HomePage.step].
  - split; [apply onProgress_keeps_file | reflexivity].
  - destruct (HomePage.notificationTimers s); split; reflexivity.
  - split; reflexivity.
Qed.

Lemma keepsUploadList_run es : forall s,
  Forall (fun e => HomePage.keepsUploadList e = true) es ->
  UploadingFile.file <$> HomePage.uploadingFiles (HomePage.run s es) =
    UploadingFile.file <$> HomePage.uploadingFiles s /\
  HomePage.audioFiles (HomePage.run s es) = HomePage.audioFiles s.
Proof.
  induction es as [|e es IH]; intros s Hes; [split; reflexivity |].
  apply Forall_cons in Hes as [He Hes].
  destruct (IH (HomePage.step s e) Hes) as [Hfile Haudio].
  destruct (keepsUploadList_step s e He) as [Hfile1 Haudio1].
  split; [etrans; [exact Hfile | exact Hfile1] |
          etrans; [exact Haudio | exact Haudio1]].
Qed.

Lemma progress_keeps_audioFiles progress : forall s,
  HomePage.audioFiles
    (foldl (fun s '(fileIndex, p) => HomePage.uploadProgress fileIndex p s)
       s progress) =
  HomePage.audioFiles s.
Proof.
  induction progress as [|[i p] progress IH]; intros s; [reflexivity |].
  cbn [foldl]. rewrite IH. reflexivity.
Qed.

Lemma handleFilesSelected_uploaded uuidv4 files progress uploaded s :
  HomePage.audioFiles
    (HomePage.handleFilesSelected uuidv4 files progress (inl uploaded) s) =
  uploaded ++ HomePage.audioFiles s.
Proof.
  unfold HomePage.handleFilesSelected.
  change (HomePage.audioFiles (HomePage.uploadAnswered files (inl uploaded) ?x))
    with (uploaded ++ HomePage.audioFiles x).
  rewrite progress_keeps_audioFiles. reflexivity.
Qed.

(** C4, as the code has it: the batch is uploaded by one request, and when
    that request fails the failure is told for the upload list as a
    whole.  Whatever the state of the page is when the rejection arrives,
    every entry of the upload list is marked as failed with one and the
    same message, the message of the error of the request, which is also
    the notification, and no file is added to the library.  When since
    the selection of the batch no other batch was selected, no timeout
    has emptied the upload list and no other request was answered, these
    entries are the files of the batch, in their order. *)
Theorem upload_failure_marks_whole_batch (uuidv4 : nat -> string)
    (files : list File.t) (es : list HomePage.Event)
    (err : HomePage.UploadError) (s s1 : HomePage.State) :
  Forall (fun e => HomePage.keepsUploadList e = true) es ->
  (HomePage.uploadingFiles (HomePage.uploadAnswered files (inr err) s1) =
     HomePage.markError (HomePage.errorMessage err) <$>
       HomePage.uploadingFiles s1 /\
   HomePage.audioFiles (HomePage.uploadAnswered files (inr err) s1) =
     HomePage.audioFiles s1 /\
   HomePage.notification (HomePage.uploadAnswered files (inr err) s1) =
     Some (HomePage.error, HomePage.errorMessage err) /\
   HomePage.isUploading (HomePage.uploadAnswered files (inr err) s1) = false) /\
  UploadingFile.file <$>
    HomePage.uploadingFiles
      (HomePage.run s
         (HomePage.FilesSelected uuidv4 files :: es ++
          [HomePage.UploadAnswered files (inr err)])) = files /\
  Forall (fun f => UploadingFile.status f = UploadStatus.error /\
                   UploadingFile.error f = Some (HomePage.errorMessage err))
    (HomePage.uploadingFiles
       (HomePage.run s
          (HomePage.FilesSelected uuidv4 files :: es ++
           [HomePage.UploadAnswered files (inr err)]))) /\
  HomePage.audioFiles
    (HomePage.run s
       (HomePage.FilesSelected uuidv4 files :: es ++
        [HomePage.UploadAnswered files (inr err)])) =
    HomePage.audioFiles s.
Proof.
  intros Hes. split; [repeat split |].
  unfold HomePage.run. cbn [foldl]. rewrite foldl_app. cbn [foldl].
  fold (HomePage.run (HomePage.step s (HomePage.FilesSelected uuidv4 files)) es).
  destruct (keepsUploadList_run es
              (HomePage.step s (HomePage.FilesSelected uuidv4 files)) Hes)
    as [Hfile Haudio].
  set (s2 := HomePage.run
               (HomePage.step s (HomePage.FilesSelected uuidv4 files)) es)
    in *.
  cbn [HomePage.step].
  change (HomePage.uploadingFiles
            (HomePage.uploadAnswered files (inr err) s2))
    with (HomePage.markError (HomePage.errorMessage err) <$>
            HomePage.uploadingFiles s2).
  change (HomePage.audioFiles (HomePage.uploadAnswered files (inr err) s2))
    with (HomePage.audioFiles s2).
  repeat split.
  - rewrite <- list_fmap_compose.
    change (UploadingFile.file ∘ HomePage.markError (HomePage.errorMessage err))
      with UploadingFile.file.
    rewrite Hfile. apply newUploadingFiles_file.
  - apply Forall_fmap, Forall_true. intros f. split; reflexivity.
  - exact Haudio.
Qed.

Lemma upload_failure_marks_whole_batch_witness :
  (HomePage.uploadingFiles
     (HomePage.uploadAnswered twoFiles (inr secondFileRefused) emptyLibrary) =
     HomePage.markError (HomePage.errorMessage secondFileRefused) <$>
       HomePage.uploadingFiles emptyLibrary /\
   HomePage.audioFiles
     (HomePage.uploadAnswered twoFiles (inr secondFileRefused) emptyLibrary) =
     HomePage.audioFiles emptyLibrary /\
   HomePage.notification
     (HomePage.uploadAnswered twoFiles (inr secondFileRefused) emptyLibrary) =
     Some (HomePage.error, HomePage.errorMessage secondFileRefused) /\
   HomePage.isUploading
     (HomePage.uploadAnswered twoFiles (inr secondFileRefused) emptyLibrary) =
     false) /\
  UploadingFile.file <$>
    HomePage.uploadingFiles
      (HomePage.run emptyLibrary
         (HomePage.FilesSelected sampleUuid twoFiles ::
          [HomePage.UploadProgress 0 50; HomePage.UploadProgress 1 50;
           HomePage.NotificationClosed] ++
          [HomePage.UploadAnswered twoFiles (inr secondFileRefused)])) =
    twoFiles /\
  Forall (fun f => UploadingFile.status f = UploadStatus.error /\
                   UploadingFile.error f =
                     Some (HomePage.errorMessage secondFileRefused))
    (HomePage.uploadingFiles
       (HomePage.run emptyLibrary
          (HomePage.FilesSelected sampleUuid twoFiles ::
           [HomePage.UploadProgress 0 50; HomePage.UploadProgress 1 50;
            HomePage.NotificationClosed] ++
           [HomePage.UploadAnswered twoFiles (inr secondFileRefused)]))) /\
  HomePage.audioFiles
    (HomePage.run emptyLibrary
       (HomePage.FilesSelected sampleUuid twoFiles ::
        [HomePage.UploadProgress 0 50; HomePage.UploadProgress 1 50;
         HomePage.NotificationClosed] ++
        [HomePage.UploadAnswered twoFiles (inr secondFileRefused)])) =
    HomePage.audioFiles emptyLibrary.
Proof.
  apply (upload_failure_marks_whole_batch sampleUuid twoFiles
           [HomePage.UploadProgress 0 50; HomePage.UploadProgress 1 50;
            HomePage.NotificationClosed]
           secondFileRefused emptyLibrary emptyLibrary).
  repeat constructor.
Defined.

(** C4 as stated fails: in a batch of two files whose upload the server
    refuses because of the second file, the first file is marked as failed
    too, with the message about the second file, and neither file reaches
    the library. *)
Lemma upload_failure_per_file_counterexample :
  (File.name ∘ UploadingFile.file) <$>
    HomePage.uploadingFiles
      (HomePage.run emptyLibrary
         [HomePage.FilesSelected sampleUuid twoFiles;
          HomePage.UploadAnswered twoFiles (inr secondFileRefused)]) =
    ["a.mp3"; "b.wav"]%string /\
  UploadingFile.status <$>
    HomePage.uploadingFiles
      (HomePage.run emptyLibrary
         [HomePage.FilesSelected sampleUuid twoFiles;
          HomePage.UploadAnswered twoFiles (inr secondFileRefused)]) =
    [UploadStatus.error; UploadStatus.error] /\
  UploadingFile.error <$>
    HomePage.uploadingFiles
      (HomePage.run emptyLibrary
         [HomePage.FilesSelected sampleUuid twoFiles;
          HomePage.UploadAnswered twoFiles (inr secondFileRefused)]) =
    [Some "b.wav: unsupported format"; Some "b.wav: unsupported format"]%string /\
  HomePage.audioFiles
    (HomePage.run emptyLibrary
       [HomePage.FilesSelected sampleUuid twoFiles;
        HomePage.UploadAnswered twoFiles (inr secondFileRefused)]) = [].
Proof. repeat split. Qed.

(** The entries that a failure marks are those of the upload list as it
    is when the rejection arrives, which need not be those of the batch.
    Here a first batch succeeds, a second batch is selected within two
    seconds, the timeout of the first batch empties the upload list, and
    the second batch fails: the failure is told by the notification, and
    no entry is left to be marked. *)
Remark failure_after_timer_marks_nothing :
  HomePage.uploadingFiles
    (HomePage.run emptyLibrary
       [HomePage.FilesSelected sampleUuid twoFiles;
        HomePage.UploadAnswered twoFiles (inl []);
        HomePage.FilesSelected sampleUuid twoFiles;
        HomePage.UploadTimerFires;
        HomePage.UploadAnswered twoFiles (inr secondFileRefused)]) = [] /\
  HomePage.notification
    (HomePage.run emptyLibrary
       [HomePage.FilesSelected sampleUuid twoFiles;
        HomePage.UploadAnswered twoFiles (inl []);
        HomePage.FilesSelected sampleUuid twoFiles;
        HomePage.UploadTimerFires;
        HomePage.UploadAnswered twoFiles (inr secondFileRefused)]) =
    Some (HomePage.error, "b.wav: unsupported format"%string).
Proof. split; reflexivity. Qed.


(** * Further properties of the code *)

(** ** Time index: malformed input, time NaN, order in time, seeking *)

(** Tokens whose starts increase strictly. *)
Definition strictly_sorted_by_start (ws : list TranscriptWord) : Prop :=
  forall i a b, ws !! i = Some a -> ws !! (S i) = Some b ->
    num_lt (start a) (start b) = true.

Fixpoint is_strictly_sorted_by_start (ws : list TranscriptWord) : bool :=
  match ws with
  | [] => true
  | a :: ws' =>
      match ws' with
      | [] => true
      | b :: _ => num_lt (start a) (start b) && is_strictly_sorted_by_start ws'
      end
  end.

Lemma is_strictly_sorted_by_start_correct ws :
  is_strictly_sorted_by_start ws = true -> strictly_sorted_by_start ws.
Proof.
  induction ws as [|a ws IH]; intros H i x y Hx Hy; [discriminate |].
  destruct ws as [|b ws]; [destruct i; discriminate |].
  cbn [is_strictly_sorted_by_start] in H.
  apply andb_prop in H as [Hab Hrest].
  destruct i as [|i].
  - cbn in Hx, Hy. congruence.
  - apply (IH Hrest i x y); assumption.
Qed.

Lemma num_lt_leb x y : num_lt x y = true -> PrimFloat.leb x y = true.
Proof. intros H. rank_all. rank_goal. Qed.

Lemma strictly_sorted_sorted ws :
  strictly_sorted_by_start ws -> sorted_by_start ws.
Proof. intros H i a b Ha Hb. apply num_lt_leb, (H i a b Ha Hb). Qed.

Lemma num_lt_leb_leb_absurd t a b :
  num_lt t a = true -> PrimFloat.leb a b = true ->
  PrimFloat.leb b t = true -> False.
Proof. intros H1 H2 H3. rank_all. cbn in *. lia. Qed.

(** X1: the active-word computation never throws and returns [-1] or an
    index of the array, whatever the tokens are: unsorted, overlapping or
    with NaN among the starts. *)
Theorem activeWordIndex_in_range (ws : list TranscriptWord) (t : float) :
  exists z, activeWordIndex ws t = Some z /\
    -1 <= z < Z.of_nat (length ws).
Proof.
  destruct (activeWordIndex_spec ws t) as [[H _] | (k & H & Hk & _)].
  - exists (-1). split; [exact H | lia].
  - exists (Z.of_nat k). split; [exact H |].
    destruct Hk as (w & Hw & _). apply lookup_lt_Some in Hw. lia.
Qed.

(** X2: when the playback time is NaN no word is active, whatever the
    tokens are. *)
Theorem activeWordIndex_nan (ws : list TranscriptWord) (t : float) :
  ~ is_num t -> activeWordIndex ws t = Some (-1).
Proof.
  intros Hnan.
  destruct (activeWordIndex_spec ws t) as [[H _] | (k & _ & Hk & _)];
    [exact H | exfalso].
  destruct Hk as (w & _ & Hge & _).
  apply Hnan. apply (leb_is_num (start w) t). exact Hge.
Qed.

Lemma activeWordIndex_nan_witness :
  activeWordIndex letters PrimFloat.nan = Some (-1).
Proof.
  apply (activeWordIndex_nan letters PrimFloat.nan).
  unfold is_num. vm_compute. discriminate.
Defined.

(** X3: on tokens sorted by start the active index never moves back when
    the time advances: if a word is active at [t1] and [t1 <= t2], a word
    is active at [t2] and its index is not smaller. *)
Theorem activeWordIndex_monotone (ws : list TranscriptWord) (t1 t2 : float)
    (k1 : nat) :
  sorted_by_start ws -> PrimFloat.leb t1 t2 = true ->
  activeWordIndex ws t1 = Some (Z.of_nat k1) ->
  exists k2, activeWordIndex ws t2 = Some (Z.of_nat k2) /\ (k1 <= k2)%nat.
Proof.
  intros Hs Hle H1.
  assert (window_contract ws t1 k1) as Hc1.
  { destruct (activeWordIndex_spec ws t1) as [[H _] | (k & H & Hk & _)].
    - rewrite H in H1. injection H1 as H1. lia.
    - rewrite H in H1. injection H1 as H1.
      assert (k = k1) as -> by lia. exact Hk. }
  destruct Hc1 as (w1 & Hw1 & Hge1 & _).
  assert (num_ge t2 (start w1) = true) as Hge2
    by (apply (leb_trans _ t1); assumption).
  destruct (lookup_lt_is_Some_2 ws 0) as [w0 Hw0].
  { apply lookup_lt_Some in Hw1. lia. }
  assert (num_ge t2 (start w0) = true) as Hge0.
  { destruct k1 as [|k1]; [congruence |].
    apply (leb_trans _ (start w1)); [ | exact Hge2].
    apply (sorted_by_start_lt ws 0 (S k1)); trivial. lia. }
  destruct (window_contract_exists ws t2 w0 Hs Hw0 Hge0) as [i Hi].
  destruct (activeWordIndex_spec ws t2) as [[_ Hnone] | (k2 & H2 & Hk2 & _)];
    [destruct (Hnone i Hi) |].
  exists k2. split; [exact H2 |].
  destruct (Nat.le_gt_cases k1 k2) as [?|Hlt]; [assumption | exfalso].
  destruct Hk2 as (w2 & Hw2 & _ & Hnext).
  destruct Hnext as [Hlast | (w' & Hw' & Hlt')].
  - apply lookup_lt_Some in Hw1. lia.
  - assert (PrimFloat.leb (start w') (start w1) = true) as Hw'1.
    { destruct (Nat.eq_dec (S k2) k1) as [<-|Hne].
      - assert (w' = w1) as -> by congruence.
        apply (leb_is_num (start w1) t2). exact Hge2.
      - apply (sorted_by_start_lt ws (S k2) k1); trivial. lia. }
    apply (num_lt_leb_leb_absurd t2 (start w') (start w1)); assumption.
Qed.

Lemma activeWordIndex_monotone_witness :
  exists k2, activeWordIndex letters 7.5 = Some (Z.of_nat k2) /\ (3 <= k2)%nat.
Proof.
  apply (activeWordIndex_monotone letters 3.5 7.5 3).
  - apply is_sorted_by_start_correct. reflexivity.
  - reflexivity.
  - reflexivity.
Defined.

(** X4: on tokens whose starts increase strictly, at the start time of a
    word, which is where a click on the word seeks to, that word is the
    active one. *)
Theorem activeWordIndex_at_start (ws : list TranscriptWord) (k : nat)
    (w : TranscriptWord) :
  strictly_sorted_by_start ws -> ws !! k = Some w -> is_num (start w) ->
  activeWordIndex ws (start w) = Some (Z.of_nat k).
Proof.
  intros Hs Hw Hnum.
  assert (window_contract ws (start w) k) as Hc.
  { exists w. split; [exact Hw |]. split; [exact Hnum |].
    destruct (Nat.eq_dec (S k) (length ws)) as [Heq|Hne]; [left; exact Heq |].
    right. destruct (lookup_lt_is_Some_2 ws (S k)) as [w' Hw'].
    { apply lookup_lt_Some in Hw. lia. }
    exists w'. split; [exact Hw' | apply (Hs k w w' Hw Hw')]. }
  destruct (activeWordIndex_spec ws (start w)) as [[_ Hnone] | (j & Hj & Hcj & _)];
    [destruct (Hnone k Hc) |].
  rewrite Hj. do 2 f_equal.
  apply (window_contract_unique ws (start w)); trivial.
  apply strictly_sorted_sorted, Hs.
Qed.

Lemma activeWordIndex_at_start_witness :
  activeWordIndex letters (start (mkWord "d" 3)) = Some (Z.of_nat 3).
Proof.
  apply (activeWordIndex_at_start letters 3 (mkWord "d" 3)).
  - apply is_strictly_sorted_by_start_correct. reflexivity.
  - reflexivity.
  - reflexivity.
Defined.

(** ** Search: cap, order of the results, coverage and density *)

Lemma prefix_append q a b :
  String.prefix q a = true -> String.prefix q (a ++ b) = true.
Proof.
  revert a. induction q as [|c q IH]; intros a H.
  - destruct (a ++ b)%string; reflexivity.
  - destruct a as [|d a]; [discriminate |]. simpl in H |- *.
    destruct (ascii_dec c d); [apply IH, H | discriminate].
Qed.

Lemma prefix_empty s : String.prefix "" s = true.
Proof. destruct s; reflexivity. Qed.

Lemma includes_unfold s q :
  includes s q =
  String.prefix q s ||
  match s with
  | EmptyString => false
  | String _ s' => includes s' q
  end.
Proof. destruct s; reflexivity. Qed.

Lemma includes_append_r a b q :
  includes b q = true -> includes (a ++ b) q = true.
Proof.
  intros H. induction a as [|c a IH]; [exact H |].
  change (String c a ++ b)%string with (String c (a ++ b)).
  rewrite includes_unfold, IH. apply orb_true_r.
Qed.

Lemma includes_append_l a b q :
  includes a q = true -> includes (a ++ b) q = true.
Proof.
  induction a as [|c a IH]; intros H.
  - rewrite includes_unfold in H. rewrite orb_false_r in H.
    destruct q; [ | discriminate].
    rewrite includes_unfold, prefix_empty. reflexivity.
  - rewrite includes_unfold in H. apply orb_true_iff in H as [H | H].
    + rewrite includes_unfold, (prefix_append _ _ b H). reflexivity.
    + change (String c a ++ b)%string with (String c (a ++ b)).
      rewrite includes_unfold, (IH H). apply orb_true_r.
Qed.

Lemma toLowerCase_append a b :
  toLowerCase (a ++ b) = (toLowerCase a ++ toLowerCase b)%string.
Proof.
  induction a as [|c a IH]; [reflexivity |].
  change (String (toLowerAscii c) (toLowerCase (a ++ b)) =
          String (toLowerAscii c) (toLowerCase a ++ toLowerCase b))%string.
  rewrite IH. reflexivity.
Qed.

(** A text that contains the query keeps containing it once joined with
    others. *)
Lemma includes_join sep l x q :
  x ∈ l -> includes (toLowerCase x) q = true ->
  includes (toLowerCase (join sep l)) q = true.
Proof.
  intros Hin Hx. induction l as [|y l IH]; [inversion Hin |].
  unfold join in *. destruct l as [|z l].
  - apply list_elem_of_singleton in Hin as ->. exact Hx.
  - change (String.concat sep (y :: z :: l))
      with (y ++ sep ++ String.concat sep (z :: l))%string.
    rewrite !toLowerCase_append.
    apply elem_of_cons in Hin as [-> | Hin].
    + apply includes_append_l, Hx.
    + apply includes_append_r, includes_append_r, IH, Hin.
Qed.

Lemma spec_window_covers ws i k w :
  ws !! k = Some w -> (i < length ws)%nat ->
  (k <= i + 5)%nat -> (i <= k + 5)%nat ->
  w ∈ spec_window ws i.
Proof.
  intros Hk Hi Hhi Hlo. pose proof (lookup_lt_Some _ _ _ Hk) as Hlt.
  apply list_elem_of_lookup.
  exists (k - Z.to_nat (Z.max 0 (Z.of_nat i - 5)))%nat.
  unfold spec_window. rewrite lookup_take_lt by lia.
  rewrite lookup_drop. rewrite <- Hk. f_equal. lia.
Qed.

Lemma window_with_hit_matches ws q i k w :
  ws !! k = Some w ->
  includes (toLowerCase (word w)) (toLowerCase q) = true ->
  (i < length ws)%nat -> (k <= i + 5)%nat -> (i <= k + 5)%nat ->
  SearchPage.windowMatches ws q i = true.
Proof.
  intros Hk Hhit Hi Hhi Hlo. rewrite windowMatches_spec by exact Hi.
  apply (includes_join _ _ (word w)); [ | exact Hhit].
  apply list_elem_of_fmap. exists w. split; [reflexivity |].
  apply (spec_window_covers ws i k); assumption.
Qed.

(** The scan cannot step over a token that contains the query. *)
Lemma scan_reaches_hit ws q k w :
  ws !! k = Some w ->
  includes (toLowerCase (word w)) (toLowerCase q) = true ->
  forall fuel i0, (length ws <= fuel + i0)%nat -> (i0 <= k)%nat ->
  exists i, i ∈ SearchPage.testedFrom fuel ws (toLowerCase q) i0 /\
    SearchPage.windowMatches ws q i = true /\
    (k <= i + 5)%nat /\ (i <= k + 5)%nat.
Proof.
  intros Hk Hhit. pose proof (lookup_lt_Some _ _ _ Hk) as Hlt.
  induction fuel as [|fuel IH]; intros i0 Hfuel Hi0; [lia |].
  rewrite (testedFrom_step ws q fuel i0) by lia.
  destruct (Nat.le_gt_cases k (i0 + 5)) as [Hnear|Hfar].
  - exists i0. split; [apply list_elem_of_here |].
    split; [ | lia].
    apply (window_with_hit_matches ws q i0 k w); trivial; lia.
  - destruct (IH (if SearchPage.windowMatches ws q i0
                  then i0 + 6 else i0 + 1)%nat)
      as (i & Hin & Hrest).
    + destruct (SearchPage.windowMatches ws q i0); lia.
    + destruct (SearchPage.windowMatches ws q i0); lia.
    + exists i. split; [apply list_elem_of_further, Hin | exact Hrest].
Qed.

Lemma recorded_spec ws q i : (i < length ws)%nat ->
  exists w, ws !! SearchPage.windowLo i = Some w /\
    recorded ws (toLowerCase q) i =
    if SearchPage.windowMatches ws q i
    then Some {| SearchPage.text := join " " (word <$> spec_window ws i);
                 SearchPage.startTime := start w |}
    else None.
Proof.
  intros Hi. destruct (scanBody_spec ws q i [] Hi) as (w & Hw & Hbody).
  exists w. split; [exact Hw |]. unfold recorded. rewrite Hbody.
  destruct (SearchPage.windowMatches ws q i); reflexivity.
Qed.

(** X5: skipping ahead after a match loses no token: every token whose
    text contains the query, case put aside, lies inside the context
    window of a match that the scan of the transcript records. *)
Theorem search_covers_every_hit (ws : list TranscriptWord) (q : string)
    (k : nat) (w : TranscriptWord) :
  ws !! k = Some w ->
  includes (toLowerCase (word w)) (toLowerCase q) = true ->
  exists found m i,
    SearchPage.searchWords ws q = Returns found /\ m ∈ found /\
    (i < length ws)%nat /\ (k <= i + 5)%nat /\ (i <= k + 5)%nat /\
    w ∈ spec_window ws i /\
    SearchPage.text m = join " " (word <$> spec_window ws i).
Proof.
  intros Hk Hhit.
  destruct (scan_reaches_hit ws q k w Hk Hhit (length ws) 0%nat)
    as (i & Hin & Hmatch & Hhi & Hlo); [lia | lia |].
  pose proof (tested_in_range ws q _ _ _ Hin) as Hi.
  destruct (recorded_spec ws q i Hi) as (w0 & _ & Hrec).
  rewrite Hmatch in Hrec.
  eexists _, _, i. split; [apply searchWords_tested |].
  split.
  - apply list_elem_of_omap. exists i. split; [exact Hin | exact Hrec].
  - repeat split; trivial.
    apply (spec_window_covers ws i k); assumption.
Qed.

Lemma search_covers_every_hit_witness :
  exists found m i,
    SearchPage.searchWords letters "H" = Returns found /\ m ∈ found /\
    (i < length letters)%nat /\ (7 <= i + 5)%nat /\ (i <= 7 + 5)%nat /\
    mkWord "h" 7 ∈ spec_window letters i /\
    SearchPage.text m = join " " (word <$> spec_window letters i).
Proof.
  apply (search_covers_every_hit letters "H" 7 (mkWord "h" 7)); reflexivity.
Defined.

(** X6: two matches of a transcript are at least six tokens apart, so a
    transcript of [n] tokens gives at most [(n + 5) / 6] matches, before
    the cap of three is applied. *)
Theorem search_match_density (ws : list TranscriptWord) (q : string) :
  exists found, SearchPage.searchWords ws q = Returns found /\
    (6 * length found <= length ws + 5)%nat.
Proof.
  assert (forall fuel i acc, (length ws <= fuel + i)%nat ->
            exists added,
              SearchPage.scanLoop fuel ws (toLowerCase q) i acc =
                Returns (acc ++ added) /\
              (6 * length added <= (length ws - i) + 5)%nat) as Hloop.
  { induction fuel as [|fuel IH]; intros i acc Hfuel;
      cbn [SearchPage.scanLoop];
      destruct (Nat.leb_spec (length ws) i) as [Hge|Hlt]; try lia;
      try (exists []; rewrite app_nil_r; split; [reflexivity | cbn; lia]).
    destruct (scanBody_spec ws q i acc Hlt) as (w & _ & ->).
    destruct (SearchPage.windowMatches ws q i).
    - match goal with
      | |- context [SearchPage.scanLoop fuel ws _ ?j ?acc'] =>
          destruct (IH j acc') as (added & -> & Hlen); [lia |]
      end.
      eexists (_ :: added). split.
      + rewrite <- app_assoc. reflexivity.
      + cbn [length]. lia.
    - destruct (IH (i + 1)%nat acc) as (added & -> & Hlen); [lia |].
      exists added. split; [reflexivity | lia]. }
  unfold SearchPage.searchWords.
  destruct (Hloop (length ws) 0%nat []) as (added & H & Hlen); [lia |].
  exists added. split; [exact H | lia].
Qed.

Lemma omap_fmap_sublist {A B C : Type} (g : A -> option B) (f : B -> C)
    (h : A -> C) (l : list A) :
  (forall x y, g x = Some y -> f y = h x) ->
  (f <$> omap g l) `sublist_of` (h <$> l).
Proof.
  intros Hg. induction l as [|x l IH]; cbn; [constructor |].
  destruct (g x) as [y|] eqn:E; cbn.
  - rewrite (Hg x y E). apply sublist_skip, IH.
  - apply sublist_cons, IH.
Qed.

(** X7: a search gives at most one result per completed file, in the
    order of the library: the audio ids of the results are a subsequence
    of the ids of the completed files; and every result carries at least
    one match and at most three. *)
Theorem search_results_ordered_capped
    (getTranscript : string -> option TranscriptResponse)
    (audioFiles : list AudioFile.t) (searchQuery : string)
    (results : list SearchPage.SearchResult) :
  SearchPage.performSearch getTranscript audioFiles searchQuery =
    Some results ->
  (SearchPage.audioId <$> results) `sublist_of`
    (AudioFile.id <$>
       filter (fun f => AudioFile.status f = Some completed) audioFiles) /\
  forall r, r ∈ results ->
    (1 <= length (SearchPage.matches r) <= 3)%nat.
Proof.
  unfold SearchPage.performSearch.
  destruct (trim_is_empty searchQuery); [discriminate |].
  intros [= <-]. split.
  - apply omap_fmap_sublist. intros file r Hr.
    unfold SearchPage.searchFile in Hr.
    destruct (getTranscript (AudioFile.id file)) as [resp|]; [ | discriminate].
    destruct (status resp), (transcript resp); try discriminate.
    destruct (SearchPage.searchWords _ _); try discriminate.
    destruct (0 <? length a)%nat; [ | discriminate].
    injection Hr as <-. reflexivity.
  - intros r Hr. apply list_elem_of_omap in Hr as (file & _ & Hr).
    unfold SearchPage.searchFile in Hr.
    destruct (getTranscript (AudioFile.id file)) as [resp|]; [ | discriminate].
    destruct (status resp), (transcript resp); try discriminate.
    destruct (SearchPage.searchWords _ _) as [found| |]; try discriminate.
    destruct (Nat.ltb_spec 0 (length found)); [ | discriminate].
    injection Hr as <-. cbn. rewrite length_take. lia.
Qed.

Lemma search_results_ordered_capped_witness :
  (SearchPage.audioId <$>
     [ {| SearchPage.audioId := "audio-1";
          SearchPage.audioTitle := "alphabet";
          SearchPage.audioUrl := "/alphabet.mp3";
          SearchPage.audioDuration := Some 12%float;
          SearchPage.audioSize := 1024%float;
          SearchPage.matches :=
            [{| SearchPage.text := "a b c d e f";
                SearchPage.startTime := 0 |}] |} ]) `sublist_of`
    (AudioFile.id <$>
       filter (fun f => AudioFile.status f = Some completed) [lettersFile]) /\
  forall r,
    r ∈ [ {| SearchPage.audioId := "audio-1";
             SearchPage.audioTitle := "alphabet";
             SearchPage.audioUrl := "/alphabet.mp3";
             SearchPage.audioDuration := Some 12%float;
             SearchPage.audioSize := 1024%float;
             SearchPage.matches :=
               [{| SearchPage.text := "a b c d e f";
                   SearchPage.startTime := 0 |}] |} ] ->
    (1 <= length (SearchPage.matches r) <= 3)%nat.
Proof.
  apply (search_results_ordered_capped lettersService [lettersFile] "a").
  vm_compute. reflexivity.
Defined.

(** ** The player page: one interval, what ends a poll, a failed first
    fetch, a completed observation *)


Section PlayerPageMore.
Import PlayerPage.

(** X8: in every reachable state at most one interval is set, and it is
    the one that [pollIntervalRef] holds. *)
Theorem at_most_one_interval (es : list Event) (h1 h2 : TimerId) :
  h1 ∈ intervals (run init es) -> h2 ∈ intervals (run init es) ->
  h1 = h2 /\ pollIntervalRef (run init es) = Some h1.
Proof.
  intros H1 H2.
  destruct (run_owned es init init_owned) as [Hown _].
  pose proof (Hown h1 H1) as E1. pose proof (Hown h2 H2) as E2.
  split; [congruence | exact E1].
Qed.

Lemma intervals_kept s e h :
  h ∈ intervals s -> ~ ends_poll s e -> h ∈ intervals (step s e).
Proof.
  intros Hin Hnot.
  destruct e as [a [r|]|h'|hq [r|]|[|]|t| |au lo| |code]; cbn [step];
    cbn in Hnot.
  - unfold loadAudioFile. cbn.
    destruct (transcript r), (status r); cbn; trivial;
      exfalso; apply Hnot; auto.
  - exact Hin.
  - destruct (decide (h' ∈ intervals s)); exact Hin.
  - destruct (decide (hq ∈ inFlight s)) as [Hq|]; [ | exact Hin].
    unfold pollAnswered. cbn.
    destruct (transcript r), (status r); cbn; trivial;
      exfalso; apply Hnot; auto.
  - destruct (decide (hq ∈ inFlight s)); exact Hin.
  - unfold handleRetryTranscription.
    destruct (audio s); [ | exact Hin].
    exfalso. apply Hnot. discriminate.
  - unfold handleRetryTranscription. destruct (audio s); exact Hin.
  - exact Hin.
  - exfalso. apply Hnot. exact I.
  - auth_case; exact Hin.
  - exact Hin.
  - exact Hin.
Qed.

(** X9: a poll stops for no other reason than the ones above: if an
    interval is set before an event and not after it, the event is a tick
    that observes a terminal status, the teardown, or a new
    [startPolling].  A request that fails and an observation of uploaded
    or processing leave the interval set. *)
Theorem poll_stops_only_when_ended (s : State) (e : Event) (h : TimerId) :
  h ∈ intervals s -> h ∉ intervals (step s e) -> ends_poll s e.
Proof.
  intros Hin Hout.
  assert (Decision (ends_poll s e)) as [Hyes|Hno].
  { destruct e as [a [r|]|h'|hq [r|]|[|]|t| |au lo| |code]; cbn; apply _. }
  - exact Hyes.
  - destruct (Hout (intervals_kept s e h Hin Hno)).
Qed.
End PlayerPageMore.

Lemma at_most_one_interval_witness :
  1%positive = 1%positive /\
  PlayerPage.pollIntervalRef (PlayerPage.run PlayerPage.init firstTickSent) =
    Some 1%positive.
Proof.
  apply (at_most_one_interval firstTickSent 1%positive 1%positive);
    cbn; set_solver.
Defined.

Lemma poll_stops_only_when_ended_witness :
  ends_poll (PlayerPage.run PlayerPage.init firstTickSent) PlayerPage.Unmount.
Proof.
  apply (poll_stops_only_when_ended
           (PlayerPage.run PlayerPage.init firstTickSent) PlayerPage.Unmount
           1%positive).
  - cbn. set_solver.
  - cbn. set_solver.
Defined.

Section PlayerPageEdge.
Import PlayerPage.




(** The answer to a poll request leaves the page around the transcript
    view as it is. *)
Lemma pollAnswered_shell s h response :
  isAuthenticated (step s (PollAnswered h response)) = isAuthenticated s /\
  loading (step s (PollAnswered h response)) = loading s /\
  loadingAudio (step s (PollAnswered h response)) = loadingAudio s /\
  error (step s (PollAnswered h response)) = error s /\
  audio (step s (PollAnswered h response)) = audio s /\
  mounted (step s (PollAnswered h response)) = mounted s.
Proof.
  cbn [step]. destruct (decide (h ∈ inFlight s)); [ | repeat split].
  unfold pollAnswered, loadTranscript, stopPolling.
  destruct response as [r|]; [ | repeat split].
  destruct (transcript r), (status r); cbn;
    destruct (pollIntervalRef s); repeat split.
Qed.

(** When the page returns the player, it does so in every state with the
    same values around the transcript view. *)
Lemma render_player s s' a v :
  isAuthenticated s' = isAuthenticated s -> loading s' = loading s ->
  loadingAudio s' = loadingAudio s -> error s' = error s ->
  audio s' = audio s -> render s = Player a v ->
  render s' = Player a (TranscriptView.render (viewProps s')).
Proof.
  unfold render. intros -> -> -> -> ->.
  destruct (loading s || loadingAudio s); [discriminate |].
  destruct (negb (isAuthenticated s)); [discriminate |].
  destruct (error s) as [[|c msg]|]; try discriminate;
    (destruct (audio s); [ | discriminate]); intros [= <- _]; reflexivity.
Qed.

(** X11: in a reachable state in which the page is mounted and returns
    the player, the answer to a poll request in flight that reports
    completed with a transcript that has tokens puts exactly these tokens
    on the screen, with an active index that is [-1] or an index of the
    transcript, and leaves no interval set. *)
Theorem completed_answer_shows_tokens (es : list Event) (h : TimerId)
    (r : TranscriptResponse) (tr : Transcript) (a : StoredAudioFile)
    (v : option TranscriptView.View) :
  mounted (run init es) = true -> render (run init es) = Player a v ->
  h ∈ inFlight (run init es) ->
  status r = completed -> transcript r = Some tr -> words tr <> [] ->
  visibleWords (step (run init es) (PollAnswered h (Some r))) = words tr /\
  transcriptStatus (step (run init es) (PollAnswered h (Some r))) = completed /\
  intervals (step (run init es) (PollAnswered h (Some r))) = ∅ /\
  exists active,
    render (step (run init es) (PollAnswered h (Some r))) =
      Player a (Some (TranscriptView.TranscriptText (words tr) active)) /\
    -1 <= active < Z.of_nat (length (words tr)).
Proof.
  intros Hm Hp Hq Hst Htr Hne.
  pose proof (run_owned es init init_owned) as [Hown _].
  generalize dependent (run init es). intros s Hm Hp Hq Hown.
  assert (transcriptStatus (step s (PollAnswered h (Some r))) = completed)
    as Hstatus.
  { rewrite step_status. cbn. destruct (decide (h ∈ inFlight s));
      [exact Hst | contradiction]. }
  assert (transcriptWords (step s (PollAnswered h (Some r))) = words tr)
    as Hwords.
  { rewrite step_words. cbn. destruct (decide (h ∈ inFlight s));
      [rewrite Htr; reflexivity | contradiction]. }
  destruct (pollAnswered_shell s h (Some r)) as (Hau & Hlo & Hla & Her & Ha & Hmo).
  pose proof (render_player s (step s (PollAnswered h (Some r))) a v
                Hau Hlo Hla Her Ha Hp) as Hpage.
  assert (intervals (step s (PollAnswered h (Some r))) = ∅) as Hivs.
  { cbn. destruct (decide (h ∈ inFlight s)); [ | contradiction].
    unfold pollAnswered. cbn. rewrite Htr, Hst. cbn.
    unfold stopPolling. cbn.
    destruct (pollIntervalRef s) as [h0|] eqn:Href; cbn.
    - apply set_eq. intros x. split; [ | set_solver].
      intros Hx. apply elem_of_difference in Hx as [Hx Hne0].
      specialize (Hown x Hx). set_solver.
    - apply set_eq. intros x. split; [ | set_solver].
      intros Hx. specialize (Hown x Hx). discriminate. }
  assert (exists active,
            TranscriptView.render
              (viewProps (step s (PollAnswered h (Some r)))) =
              Some (TranscriptView.TranscriptText (words tr) active) /\
            -1 <= active < Z.of_nat (length (words tr))) as (active & Hr & Hact).
  { destruct (activeWordIndex_spec (words tr)
                (currentTime (step s (PollAnswered h (Some r)))))
      as [[Hidx _] | (k & Hidx & (w & Hw & _) & _)].
    - exists (-1). split.
      + unfold TranscriptView.render, viewProps.
        cbn [TranscriptView.words TranscriptView.currentTime
             TranscriptView.status].
        rewrite Hwords, Hstatus, Hidx.
        destruct (words tr); [contradiction | reflexivity].
      + destruct (words tr); [contradiction | cbn; lia].
    - exists (Z.of_nat k). split.
      + unfold TranscriptView.render, viewProps.
        cbn [TranscriptView.words TranscriptView.currentTime
             TranscriptView.status].
        rewrite Hwords, Hstatus, Hidx.
        destruct (words tr); [contradiction | reflexivity].
      + apply lookup_lt_Some in Hw. lia. }
  repeat split; trivial.
  - unfold visibleWords, TranscriptView.shownWords.
    rewrite Hmo, Hm, Hpage, Hr. reflexivity.
  - exists active. split; [ | exact Hact]. rewrite Hpage, Hr. reflexivity.
Qed.
End PlayerPageEdge.


Lemma completed_answer_shows_tokens_witness :
  PlayerPage.visibleWords
    (PlayerPage.step (PlayerPage.run PlayerPage.init firstTickSent)
       (PlayerPage.PollAnswered 1%positive
          (Some (answer completed (Some lettersTranscript))))) = letters /\
  PlayerPage.transcriptStatus
    (PlayerPage.step (PlayerPage.run PlayerPage.init firstTickSent)
       (PlayerPage.PollAnswered 1%positive
          (Some (answer completed (Some lettersTranscript))))) = completed /\
  PlayerPage.intervals
    (PlayerPage.step (PlayerPage.run PlayerPage.init firstTickSent)
       (PlayerPage.PollAnswered 1%positive
          (Some (answer completed (Some lettersTranscript))))) = ∅ /\
  exists active,
    PlayerPage.render
      (PlayerPage.step (PlayerPage.run PlayerPage.init firstTickSent)
         (PlayerPage.PollAnswered 1%positive
            (Some (answer completed (Some lettersTranscript))))) =
      PlayerPage.Player sampleAudio
        (Some (TranscriptView.TranscriptText letters active)) /\
    -1 <= active < Z.of_nat (length letters).
Proof.
  apply (completed_answer_shows_tokens firstTickSent 1%positive
           (answer completed (Some lettersTranscript)) lettersTranscript
           sampleAudio (Some TranscriptView.Transcribing)).
  - reflexivity.
  - reflexivity.
  - apply elem_of_multiplicity. vm_compute. lia.
  - reflexivity.
  - reflexivity.
  - discriminate.
Defined.

(** ** The library page: deletion, progress of an upload, choice of files *)

Module Library.

(** The state of the library page that [HomePage.State] leaves out. *)
Record State : Type := {
  page : HomePage.State;
  loadingFiles : bool;
  deletingIds : list string
}.

(** How the request of [deleteAudio] ends: done, or rejected with the
    [detail] of the answer of the server, possibly undefined. *)
Inductive DeleteOutcome : Type :=
  | Deleted
  | DeleteFailed (detail : option string).

(** [handleDeleteAudio], page.tsx lines 103-116, up to the request. *)
Definition deleteStarted (id : string) (s : State) : State :=
  {| page := page s; loadingFiles := loadingFiles s;
     deletingIds := deletingIds s ++ [id] |}.

(** [handleDeleteAudio] from the answer of the request on. *)
Definition deleteAnswered (id : string) (outcome : DeleteOutcome) (s : State)
    : State :=
  let page' :=
    match outcome with
    | Deleted =>
        HomePage.showNotification HomePage.success
          "Audio file deleted successfully"
          (HomePage.setAudioFiles
             (filter (fun audio => AudioFile.id audio <> id)
                (HomePage.audioFiles (page s)))
             (page s))
    | DeleteFailed detail =>
        let errorMessage :=
          match HomePage.truthy detail with
          | Some d => d
          | None => "Failed to delete audio file"%string
          end in
        HomePage.showNotification HomePage.error errorMessage (page s)
    end in
  {| page := page'; loadingFiles := loadingFiles s;
     deletingIds := filter (fun deletingId => deletingId <> id) (deletingIds s) |}.

(** A whole deletion. *)
Definition handleDeleteAudio (id : string) (outcome : DeleteOutcome)
    (s : State) : State :=
  deleteAnswered id outcome (deleteStarted id s).

(** [handleFilesSelected] on the state of the page. *)
Definition handleFilesSelected (uuidv4 : nat -> string) (files : list File.t)
    (progress : list (nat * float))
    (outcome : list AudioFile.t + HomePage.UploadError) (s : State) : State :=
  {| page := HomePage.handleFilesSelected uuidv4 files progress outcome (page s);
     loadingFiles := loadingFiles s; deletingIds := deletingIds s |}.


(** [handleFileChange] and [handleDrop] of the upload component, lines
    16-40: the files handed to [onFilesSelected], [None] when it is not
    called. *)
Definition selectFiles (files : list File.t) : option (list File.t) :=
  let audioFiles :=
    filter (fun file => String.prefix "audio/" (File.type file) = true)
      files in
  if (0 <? length audioFiles)%nat then Some audioFiles else None.

End Library.

Lemma filter_other_ids (id : string) (l : list AudioFile.t) :
  (forall g, g ∈ l -> AudioFile.id g <> id) ->
  filter (fun audio => AudioFile.id audio <> id) l = l.
Proof.
  intros H. induction l as [|g l IH]; [reflexivity |].
  rewrite filter_cons. destruct (decide (AudioFile.id g <> id)) as [_|Hn].
  - f_equal. apply IH. intros g' Hg'. apply H, list_elem_of_further, Hg'.
  - destruct Hn. apply H, list_elem_of_here.
Qed.

Lemma delete_all_audioFiles (outcome := Library.Deleted) l : forall s,
  HomePage.audioFiles
    (Library.page
       (foldl (fun s f => Library.handleDeleteAudio (AudioFile.id f) outcome s)
          s l)) =
  foldl (fun acc f => filter (fun audio => AudioFile.id audio <> AudioFile.id f) acc)
    (HomePage.audioFiles (Library.page s)) l.
Proof.
  induction l as [|f l IH]; intros s; [reflexivity |].
  cbn [foldl]. rewrite IH. reflexivity.
Qed.

Lemma delete_uploaded_restores (old : list AudioFile.t) l : forall pre,
  (forall g, g ∈ pre -> AudioFile.id g ∈ (AudioFile.id <$> l)) ->
  (forall g, g ∈ old -> AudioFile.id g ∉ (AudioFile.id <$> l)) ->
  foldl (fun acc f => filter (fun audio => AudioFile.id audio <> AudioFile.id f) acc)
    (pre ++ old) l = old.
Proof.
  induction l as [|f l IH]; intros pre Hpre Hold.
  - destruct pre as [|g pre]; [reflexivity |].
    specialize (Hpre g (list_elem_of_here _ _)). inversion Hpre.
  - cbn [foldl]. rewrite filter_app.
    rewrite (filter_other_ids (AudioFile.id f) old).
    + apply IH.
      * intros g Hg. apply list_elem_of_filter in Hg as [Hne Hg].
        specialize (Hpre g Hg). cbn in Hpre.
        apply elem_of_cons in Hpre as [Heq | Hin]; [contradiction | exact Hin].
      * intros g Hg Hin. apply (Hold g Hg). cbn.
        apply list_elem_of_further, Hin.
    + intros g Hg Heq. apply (Hold g Hg). cbn. rewrite Heq.
      apply list_elem_of_here.
Qed.

Lemma filter_mark_back (id : string) (ds : list string) :
  id ∉ ds -> filter (fun deletingId => deletingId <> id) (ds ++ [id]) = ds.
Proof.
  intros Hout. rewrite filter_app.
  rewrite (filter_cons_False (fun d => d <> id) id []) by auto.
  rewrite filter_nil, app_nil_r.
  induction ds as [|d ds IH]; [reflexivity |].
  rewrite filter_cons_True.
  - f_equal. apply IH. intros Hin. apply Hout, list_elem_of_further, Hin.
  - intros ->. apply Hout, list_elem_of_here.
Qed.

(** X12: deleting undoes uploading.  After a batch is uploaded, the
    successful deletion of each file that the upload created leaves the
    library as it was before the upload, provided that no file of the
    library had one of the new ids; and no id stays marked as being
    deleted that was not marked before. *)
Theorem delete_undoes_upload (uuidv4 : nat -> string) (files : list File.t)
    (progress : list (nat * float)) (uploaded : list AudioFile.t)
    (s : Library.State) :
  (forall g, g ∈ HomePage.audioFiles (Library.page s) ->
     AudioFile.id g ∉ (AudioFile.id <$> uploaded)) ->
  (forall id, id ∈ Library.deletingIds s -> id ∉ (AudioFile.id <$> uploaded)) ->
  HomePage.audioFiles
    (Library.page
       (foldl (fun s f =>
                 Library.handleDeleteAudio (AudioFile.id f) Library.Deleted s)
          (Library.handleFilesSelected uuidv4 files progress (inl uploaded) s)
          uploaded)) =
    HomePage.audioFiles (Library.page s) /\
  Library.deletingIds
    (foldl (fun s f =>
              Library.handleDeleteAudio (AudioFile.id f) Library.Deleted s)
       (Library.handleFilesSelected uuidv4 files progress (inl uploaded) s)
       uploaded) =
    Library.deletingIds s.
Proof.
  intros Hfresh Hmarks. split.
  - rewrite delete_all_audioFiles.
    cbn [Library.page Library.handleFilesSelected].
    rewrite handleFilesSelected_uploaded.
    apply delete_uploaded_restores; [ | exact Hfresh].
    intros g Hg. apply list_elem_of_fmap. exists g. auto.
  - assert (forall l s0,
              (forall id, id ∈ Library.deletingIds s0 ->
                 id ∉ (AudioFile.id <$> l)) ->
              Library.deletingIds
                (foldl (fun s f =>
                          Library.handleDeleteAudio (AudioFile.id f)
                            Library.Deleted s) s0 l) =
              Library.deletingIds s0) as Hkeep.
    { induction l as [|f l IH]; intros s0 H0; [reflexivity |].
      cbn [foldl].
      assert (Library.deletingIds
                (Library.handleDeleteAudio (AudioFile.id f) Library.Deleted s0)
              = Library.deletingIds s0) as Hone.
      { apply filter_mark_back. intros Hin.
        apply (H0 _ Hin). cbn. apply list_elem_of_here. }
      rewrite IH; [exact Hone |].
      rewrite Hone. intros id Hid Hin. apply (H0 id Hid). cbn.
      apply list_elem_of_further, Hin. }
    rewrite Hkeep; [reflexivity | exact Hmarks].
Qed.

Lemma delete_undoes_upload_witness :
  HomePage.audioFiles
    (Library.page
       (foldl (fun s f =>
                 Library.handleDeleteAudio (AudioFile.id f) Library.Deleted s)
          (Library.handleFilesSelected sampleUuid twoFiles []
             (inl [lettersFile])
             {| Library.page := emptyLibrary; Library.loadingFiles := false;
                Library.deletingIds := [] |})
          [lettersFile])) =
    HomePage.audioFiles emptyLibrary /\
  Library.deletingIds
    (foldl (fun s f =>
              Library.handleDeleteAudio (AudioFile.id f) Library.Deleted s)
       (Library.handleFilesSelected sampleUuid twoFiles []
          (inl [lettersFile])
          {| Library.page := emptyLibrary; Library.loadingFiles := false;
             Library.deletingIds := [] |})
       [lettersFile]) = [].
Proof.
  apply (delete_undoes_upload sampleUuid twoFiles [] [lettersFile]
           {| Library.page := emptyLibrary; Library.loadingFiles := false;
              Library.deletingIds := [] |}).
  - intros g Hg. inversion Hg.
  - intros id Hid. inversion Hid.
Defined.






(** X14: the upload component hands on the audio files only.  A batch
    that reaches the page is never empty, holds only files whose type
    starts with "audio/", in the order of the selection, and misses none
    of them; when the selection has no audio file the page is not called
    at all. *)
Theorem only_audio_files_are_uploaded (files : list File.t) :
  (forall batch, Library.selectFiles files = Some batch ->
     batch <> [] /\
     batch `sublist_of` files /\
     forall f, f ∈ batch <->
       f ∈ files /\ String.prefix "audio/" (File.type f) = true) /\
  (Library.selectFiles files = None <->
   forall f, f ∈ files -> String.prefix "audio/" (File.type f) = false).
Proof.
  unfold Library.selectFiles.
  set (audio := filter (fun file => String.prefix "audio/" (File.type file) = true)
                  files).
  assert (forall f, f ∈ audio <->
            f ∈ files /\ String.prefix "audio/" (File.type f) = true) as Hmem.
  { intros f. unfold audio. rewrite list_elem_of_filter. tauto. }
  split.
  - intros batch H. destruct (Nat.ltb_spec 0 (length audio)) as [Hpos|];
      [ | discriminate].
    injection H as <-. split; [ | split].
    + intros E. rewrite E in Hpos. cbn in Hpos. lia.
    + apply sublist_filter.
    + exact Hmem.
  - destruct (Nat.ltb_spec 0 (length audio)) as [Hpos|Hzero]; split.
    + discriminate.
    + intros Hnone. exfalso. destruct audio as [|f l] eqn:E; [cbn in Hpos; lia |].
      assert (f ∈ f :: l) as Hf by apply list_elem_of_here.
      apply Hmem in Hf as [Hf Ht]. rewrite (Hnone f Hf) in Ht. discriminate.
    + intros _ f Hf.
      destruct (String.prefix "audio/" (File.type f)) eqn:Ht; [ | reflexivity].
      assert (f ∈ audio) as Hin by (apply Hmem; auto).
      destruct audio; [inversion Hin | cbn in Hzero; lia].
    + reflexivity.
Qed.

Lemma only_audio_files_are_uploaded_witness :
  twoFiles <> [] /\ twoFiles `sublist_of` twoFiles /\
  forall f, f ∈ twoFiles <->
    f ∈ twoFiles /\ String.prefix "audio/" (File.type f) = true.
Proof.
  apply (proj1 (only_audio_files_are_uploaded twoFiles) twoFiles).
  reflexivity.
Defined.

(** X15: a failure is always told with a message.  The message of a failed
    upload and the message of a failed deletion are never empty, also when
    the server sends an empty [detail]; and a failed deletion leaves the
    library as it was and takes the mark of the deletion away. *)
Theorem failures_are_told (s : Library.State) (id : string)
    (detail : option string) (err : HomePage.UploadError) :
  HomePage.errorMessage err <> ""%string /\
  (exists msg,
     HomePage.notification
       (Library.page
          (Library.handleDeleteAudio id (Library.DeleteFailed detail) s)) =
       Some (HomePage.error, msg) /\ msg <> ""%string) /\
  HomePage.audioFiles
    (Library.page (Library.handleDeleteAudio id (Library.DeleteFailed detail) s)) =
    HomePage.audioFiles (Library.page s) /\
  id ∉ Library.deletingIds
         (Library.handleDeleteAudio id (Library.DeleteFailed detail) s).
Proof.
  split; [ | split; [ | split]].
  - unfold HomePage.errorMessage.
    destruct err as [[[|c d]|] [[|c' m]|]]; cbn; discriminate.
  - cbn. eexists. split; [reflexivity |].
    destruct detail as [[|c d]|]; cbn; discriminate.
  - reflexivity.
  - cbn. intros Hin. apply list_elem_of_filter in Hin as [Hne _].
    apply Hne. reflexivity.
Qed.

(** ** Routes: the middleware and the pages without an auth check *)

Module Routes.

(** [s.startsWith(p)]. *)
Definition startsWith (s p : string) : bool := String.prefix p s.

Definition publicRoutes : list string := ["/login"; "/auth/callback"]%string.

Inductive Response : Type :=
  | Next
  | Redirect (url : string).

(** [middleware], lines 95-112 of the middleware file; [accessToken] is
    the cookie [access_token], [None] when the request has none. *)
Definition middleware (pathname : string) (accessToken : option string)
    : Response :=
  let isPublicRoute :=
    existsb (fun route => startsWith pathname route) publicRoutes in
  if isPublicRoute then Next
  else
    match accessToken with
    | None => Redirect "/login"
    | Some _ => Next
    end.

(** [isAuthPage] of the auth provider, AuthContext.tsx line 46; the
    pathname may be null, and then the value is falsy. *)
Definition isAuthPage (pathname : option string) : bool :=
  match pathname with
  | None => false
  | Some p => startsWith p "/login" || startsWith p "/auth"
  end.

End Routes.

Lemma prefix_trans a b s :
  String.prefix a b = true -> String.prefix b s = true ->
  String.prefix a s = true.
Proof.
  revert b s. induction a as [|c a IH]; intros b s Hab Hbs.
  - apply prefix_empty.
  - destruct b as [|d b]; [discriminate |].
    destruct s as [|e s]; [discriminate |].
    simpl in Hab, Hbs |- *.
    destruct (ascii_dec c d) as [->|]; [ | discriminate].
    destruct (ascii_dec d e) as [->|]; [ | discriminate].
    destruct (ascii_dec e e) as [_|Hn]; [ | destruct Hn; reflexivity].
    apply (IH b s); assumption.
Qed.

(** X16: the middleware and the auth provider agree, and the redirect
    does not loop.  A request without the cookie passes exactly on the
    public routes; on every public route the provider makes no auth
    check; and the address that the middleware redirects to passes the
    middleware whatever the cookie. *)
Theorem middleware_routes (pathname : string) (accessToken : option string) :
  (Routes.middleware pathname None = Routes.Next <->
   existsb (fun route => Routes.startsWith pathname route) Routes.publicRoutes
     = true) /\
  (existsb (fun route => Routes.startsWith pathname route) Routes.publicRoutes
     = true ->
   Routes.isAuthPage (Some pathname) = true) /\
  (forall url, Routes.middleware pathname accessToken = Routes.Redirect url ->
     accessToken = None /\
     forall cookie, Routes.middleware url cookie = Routes.Next).
Proof.
  split; [ | split].
  - unfold Routes.middleware.
    destruct (existsb _ Routes.publicRoutes); split; trivial; discriminate.
  - cbn. unfold Routes.startsWith. intros H.
    apply orb_true_iff in H as [H | H].
    + rewrite H. reflexivity.
    + rewrite orb_false_r in H.
      rewrite (prefix_trans "/auth" "/auth/callback" pathname eq_refl H).
      apply orb_true_r.
  - unfold Routes.middleware. intros url.
    destruct (existsb _ Routes.publicRoutes); [discriminate |].
    destruct accessToken; [discriminate |].
    intros [= <-]. split; [reflexivity |]. intros cookie. reflexivity.
Qed.

Lemma middleware_routes_witness :
  Routes.isAuthPage (Some "/auth/callback"%string) = true /\
  (@None string = None /\
   forall cookie, Routes.middleware "/login" cookie = Routes.Next).
Proof.
  split.
  - apply (proj1 (proj2 (middleware_routes "/auth/callback" None))).
    reflexivity.
  - apply (proj2 (proj2 (middleware_routes "/player" (@None string)))).
    reflexivity.
Defined.

(** ** The auth service: the cache of the current user *)

Module AuthService.

Record User : Type := {
  id : string;
  email : string;
  name : string;
  role : option string;
  organization : option string;
  group : option string
}.

Definition CACHE_DURATION : Z := 5000.

(** Where the promise of [getCurrentUser] stands: at the first request of
    the user, at the refresh of the token, or at the second request. *)
Inductive Phase : Type := AwaitMe | AwaitRefresh | AwaitMeAgain.

(** The variables of the module, lines 19-21, and the number of requests
    that [getCurrentUser] has sent and that are not answered yet. *)
Record State : Type := {
  currentUserCache : option (User * Z);
  currentUserPromise : option Phase;
  isRefreshing : bool;
  inFlight : nat
}.

Definition init : State :=
  {| currentUserCache := None; currentUserPromise := None;
     isRefreshing := false; inFlight := 0 |}.

(** What a call of [getCurrentUser] does: it returns the cached user,
    returns the promise that is pending, or sends a request. *)
Inductive CallResult : Type :=
  | Cached (data : User)
  | Joined
  | Started.

(** The answer to a request of the user: the data, or an error with the
    status of its response, if it has one. *)
Inductive Answer : Type :=
  | Ok (data : User)
  | Failed (status : option Z).

(** [getCurrentUser], lines 25-68, up to the first [await]; [now] is
    [Date.now()], in milliseconds. *)
Definition getCurrentUser (now : Z) (s : State) : CallResult * State :=
  let fresh :=
    match currentUserCache s with
    | Some (data, timestamp) =>
        if now - timestamp <? CACHE_DURATION then Some data else None
    | None => None
    end in
  match fresh with
  | Some data => (Cached data, s)
  | None =>
      match currentUserPromise s with
      | Some _ => (Joined, s)
      | None =>
          (Started,
           {| currentUserCache := currentUserCache s;
              currentUserPromise := Some AwaitMe;
              isRefreshing := isRefreshing s;
              inFlight := S (inFlight s) |})
      end
  end.

(** The promise from the answer of a request of the user on, lines
    38-64. *)
Definition meAnswered (a : Answer) (now : Z) (s : State) : State :=
  match currentUserPromise s with
  | Some AwaitMe =>
      match a with
      | Ok data =>
          {| currentUserCache := Some (data, now);
             currentUserPromise := None;
             isRefreshing := isRefreshing s;
             inFlight := pred (inFlight s) |}
      | Failed status =>
          if bool_decide (status = Some 401) && negb (isRefreshing s) then
            (* [refreshToken] clears the cache and sends its request *)
            {| currentUserCache := None;
               currentUserPromise := Some AwaitRefresh;
               isRefreshing := true;
               inFlight := S (pred (inFlight s)) |}
          else
            {| currentUserCache := currentUserCache s;
               currentUserPromise := None;
               isRefreshing := isRefreshing s;
               inFlight := pred (inFlight s) |}
      end
  | Some AwaitMeAgain =>
      match a with
      | Ok data =>
          {| currentUserCache := Some (data, now);
             currentUserPromise := None;
             isRefreshing := isRefreshing s;
             inFlight := pred (inFlight s) |}
      | Failed _ =>
          {| currentUserCache := currentUserCache s;
             currentUserPromise := None;
             isRefreshing := false;
             inFlight := pred (inFlight s) |}
      end
  | _ => s
  end.

(** The promise from the answer of the refresh on, lines 48-59. *)
Definition refreshAnswered (ok : bool) (s : State) : State :=
  match currentUserPromise s with
  | Some AwaitRefresh =>
      if ok then
        {| currentUserCache := currentUserCache s;
           currentUserPromise := Some AwaitMeAgain;
           isRefreshing := false;
           inFlight := S (pred (inFlight s)) |}
      else
        {| currentUserCache := currentUserCache s;
           currentUserPromise := None;
           isRefreshing := false;
           inFlight := pred (inFlight s) |}
  | _ => s
  end.

(** [logout] and [clearCache], lines 75-82, on the variables of the
    module. *)
Definition clearCache (s : State) : State :=
  {| currentUserCache := None;
     currentUserPromise := currentUserPromise s;
     isRefreshing := isRefreshing s;
     inFlight := inFlight s |}.

Definition logout (s : State) : State := clearCache s.

Inductive Event : Type :=
  | Call (now : Z)
  | MeAnswered (a : Answer) (now : Z)
  | RefreshAnswered (ok : bool)
  | Logout
  | ClearCache.

Definition step (s : State) (e : Event) : State :=
  match e with
  | Call now => (getCurrentUser now s).2
  | MeAnswered a now => meAnswered a now s
  | RefreshAnswered ok => refreshAnswered ok s
  | Logout => logout s
  | ClearCache => clearCache s
  end.

Definition run (s : State) (es : list Event) : State := foldl step s es.

End AuthService.

(** What holds of the variables of the auth service in every reachable
    state. *)
Definition single_flight (s : AuthService.State) : Prop :=
  (AuthService.isRefreshing s = true <->
   AuthService.currentUserPromise s = Some AuthService.AwaitRefresh) /\
  AuthService.inFlight s =
    match AuthService.currentUserPromise s with
    | Some _ => 1%nat
    | None => 0%nat
    end.

Lemma single_flight_step s e : single_flight s -> single_flight (AuthService.step s e).
Proof.
  intros [Href Hfl]. unfold single_flight.
  destruct s as [cache promise refreshing fl]. cbn in *.
  destruct e as [now|a now|ok| |]; cbn.
  - unfold AuthService.getCurrentUser. cbn.
    destruct cache as [[data t]|]; [destruct (now - t <? _)|];
      destruct promise as [[| |]|]; cbn; subst fl;
      (split; [ | reflexivity]); try exact Href;
      split; intros H; try discriminate; apply Href in H; discriminate.
  - unfold AuthService.meAnswered. cbn.
    destruct promise as [[| |]|]; cbn; try (split; assumption);
      destruct a as [data|status]; cbn; subst fl; cbn.
    + split; [ | reflexivity].
      split; intros H; [apply Href in H | ]; discriminate.
    + destruct (bool_decide (status = Some 401)); cbn;
        [destruct refreshing; cbn | ].
      * split; [ | reflexivity].
        split; intros H; [ | discriminate]. apply Href in H. discriminate.
      * split; [tauto | reflexivity].
      * split; [ | reflexivity].
        split; intros H; [apply Href in H | ]; discriminate.
    + split; [ | reflexivity].
      split; intros H; [apply Href in H | ]; discriminate.
    + split; [ | reflexivity]. split; discriminate.
  - unfold AuthService.refreshAnswered. cbn.
    destruct promise as [[| |]|]; cbn; try (split; assumption);
      destruct ok; cbn; subst fl; cbn; (split; [ | reflexivity]);
      split; discriminate.
  - split; assumption.
  - split; assumption.
Qed.

Lemma single_flight_run es : forall s,
  single_flight s -> single_flight (AuthService.run s es).
Proof.
  induction es as [|e es IH]; intros s Hs; [exact Hs |].
  apply IH, single_flight_step, Hs.
Qed.

(** X17: [getCurrentUser] keeps one request in flight at most.  In every
    reachable state the number of its requests that wait for an answer is
    0 or 1, and [isRefreshing] is set exactly while the refresh of the
    token is the request in flight; so a call made while a request is
    pending sends nothing, and a 401 on the first request always leads to
    a refresh. *)
Theorem auth_service_single_flight (es : list AuthService.Event) :
  (AuthService.inFlight (AuthService.run AuthService.init es) <= 1)%nat /\
  (AuthService.isRefreshing (AuthService.run AuthService.init es) = true <->
   AuthService.currentUserPromise (AuthService.run AuthService.init es) =
     Some AuthService.AwaitRefresh) /\
  (forall now,
     AuthService.currentUserPromise (AuthService.run AuthService.init es)
       <> None ->
     AuthService.inFlight
       (AuthService.step (AuthService.run AuthService.init es)
          (AuthService.Call now)) =
     AuthService.inFlight (AuthService.run AuthService.init es)) /\
  (forall now,
     AuthService.currentUserPromise (AuthService.run AuthService.init es) =
       Some AuthService.AwaitMe ->
     AuthService.currentUserPromise
       (AuthService.step (AuthService.run AuthService.init es)
          (AuthService.MeAnswered (AuthService.Failed (Some 401)) now)) =
     Some AuthService.AwaitRefresh).
Proof.
  assert (single_flight (AuthService.run AuthService.init es)) as [Href Hfl].
  { apply single_flight_run. split; [ | reflexivity].
    split; discriminate. }
  generalize dependent (AuthService.run AuthService.init es).
  intros s Href Hfl. split; [ | split; [exact Href | split]].
  - rewrite Hfl. destruct (AuthService.currentUserPromise s); lia.
  - intros now Hp. cbn. unfold AuthService.getCurrentUser.
    destruct (AuthService.currentUserCache s) as [[data t]|];
      [destruct (now - t <? _); [reflexivity |] | ];
      destruct (AuthService.currentUserPromise s); try contradiction;
      reflexivity.
  - intros now Hp. cbn. unfold AuthService.meAnswered. rewrite Hp.
    destruct (AuthService.isRefreshing s) eqn:E.
    + pose proof (proj1 Href eq_refl). congruence.
    + reflexivity.
Qed.

Lemma auth_service_single_flight_witness :
  AuthService.inFlight
    (AuthService.step (AuthService.run AuthService.init [AuthService.Call 0])
       (AuthService.Call 10)) =
  AuthService.inFlight (AuthService.run AuthService.init [AuthService.Call 0]).
Proof.
  apply (proj1 (proj2 (proj2 (auth_service_single_flight [AuthService.Call 0])))
           10).
  discriminate.
Defined.

(** X18: while the cache is fresh, [getCurrentUser] costs nothing.  With
    a user cached at time [t], every call made at a time [now] with
    [now - t < 5000], also a time before [t], returns the cached user and
    leaves the variables of the module as they are: no request is sent. *)
Theorem auth_cache_serves_calls (s : AuthService.State)
    (u : AuthService.User) (t : Z) (nows : list Z) :
  AuthService.currentUserCache s = Some (u, t) ->
  Forall (fun now => now - t < AuthService.CACHE_DURATION) nows ->
  AuthService.run s (AuthService.Call <$> nows) = s /\
  Forall (fun now => (AuthService.getCurrentUser now s).1 = AuthService.Cached u)
    nows.
Proof.
  intros Hcache Hnows.
  assert (forall now, now - t < AuthService.CACHE_DURATION ->
            AuthService.getCurrentUser now s = (AuthService.Cached u, s))
    as Hcall.
  { intros now Hnow. unfold AuthService.getCurrentUser. rewrite Hcache.
    destruct (Z.ltb_spec (now - t) AuthService.CACHE_DURATION);
      [reflexivity | lia]. }
  induction Hnows as [|now nows Hnow Hnows IH].
  - split; [reflexivity | constructor].
  - destruct IH as [Hrun Hall]. split.
    + cbn. rewrite (Hcall now Hnow). exact Hrun.
    + constructor; [rewrite (Hcall now Hnow); reflexivity | exact Hall].
Qed.

Definition sampleUser : AuthService.User :=
  {| AuthService.id := "u-1"; AuthService.email := "ada@example.org";
     AuthService.name := "Ada"; AuthService.role := None;
     AuthService.organization := None; AuthService.group := None |}.

Lemma auth_cache_serves_calls_witness :
  AuthService.run
    (AuthService.run AuthService.init
       [AuthService.Call 1000;
        AuthService.MeAnswered (AuthService.Ok sampleUser) 1200])
    (AuthService.Call <$> [1300; 6199; 900]) =
  AuthService.run AuthService.init
    [AuthService.Call 1000;
     AuthService.MeAnswered (AuthService.Ok sampleUser) 1200] /\
  Forall (fun now =>
            (AuthService.getCurrentUser now
               (AuthService.run AuthService.init
                  [AuthService.Call 1000;
                   AuthService.MeAnswered (AuthService.Ok sampleUser) 1200])).1
            = AuthService.Cached sampleUser)
    [1300; 6199; 900].
Proof.
  apply (auth_cache_serves_calls
           (AuthService.run AuthService.init
              [AuthService.Call 1000;
               AuthService.MeAnswered (AuthService.Ok sampleUser) 1200])
           sampleUser 1200 [1300; 6199; 900]).
  - reflexivity.
  - repeat constructor.
Defined.

(** X19: a logout does not cancel a request of the user that is pending.
    When its answer comes after the logout, the user is cached again, and
    a call within the cache duration returns this user without asking the
    server. *)
Theorem logout_keeps_pending_request (s : AuthService.State)
    (u : AuthService.User) (now now' : Z) :
  AuthService.currentUserPromise s = Some AuthService.AwaitMe ->
  now' - now < AuthService.CACHE_DURATION ->
  AuthService.currentUserCache (AuthService.step s AuthService.Logout) = None /\
  AuthService.getCurrentUser now'
    (AuthService.run s
       [AuthService.Logout; AuthService.MeAnswered (AuthService.Ok u) now]) =
  (AuthService.Cached u,
   AuthService.run s
     [AuthService.Logout; AuthService.MeAnswered (AuthService.Ok u) now]).
Proof.
  intros Hp Hnow. split; [reflexivity |].
  cbn. unfold AuthService.meAnswered. cbn. rewrite Hp.
  unfold AuthService.getCurrentUser. cbn.
  destruct (Z.ltb_spec (now' - now) AuthService.CACHE_DURATION);
    [reflexivity | lia].
Qed.

Lemma logout_keeps_pending_request_witness :
  AuthService.currentUserCache
    (AuthService.step (AuthService.run AuthService.init [AuthService.Call 0])
       AuthService.Logout) = None /\
  AuthService.getCurrentUser 4000
    (AuthService.run (AuthService.run AuthService.init [AuthService.Call 0])
       [AuthService.Logout;
        AuthService.MeAnswered (AuthService.Ok sampleUser) 100]) =
  (AuthService.Cached sampleUser,
   AuthService.run (AuthService.run AuthService.init [AuthService.Call 0])
     [AuthService.Logout;
      AuthService.MeAnswered (AuthService.Ok sampleUser) 100]).
Proof.
  apply (logout_keeps_pending_request
           (AuthService.run AuthService.init [AuthService.Call 0])
           sampleUser 100 4000).
  - reflexivity.
  - reflexivity.
Defined.

(** ** The auth provider: when the session is checked *)

Module AuthProvider.

(** The state of the provider and its ref, AuthContext.tsx lines 28-32,
    and the number of calls of [checkAuth] so far. *)
Record State : Type := {
  user : option AuthService.User;
  loading : bool;
  hasCheckedAuth : bool;
  checks : nat
}.

Definition init : State :=
  {| user := None; loading := true; hasCheckedAuth := false; checks := 0 |}.

Definition isAuthenticated (s : State) : bool :=
  match user s with Some _ => true | None => false end.

(** [checkAuth], lines 34-43, from the answer of [getCurrentUser] on:
    [None] when it rejected. *)
Definition checkAuthAnswered (userData : option AuthService.User) (s : State)
    : State :=
  {| user := userData; loading := false;
     hasCheckedAuth := hasCheckedAuth s; checks := checks s |}.

(** The effect on the pathname, lines 45-54. *)
Definition pathnameEffect (pathname : option string) (s : State) : State :=
  if negb (hasCheckedAuth s) && negb (Routes.isAuthPage pathname) then
    {| user := user s; loading := loading s; hasCheckedAuth := true;
       checks := S (checks s) |}
  else if Routes.isAuthPage pathname then
    {| user := user s; loading := false;
       hasCheckedAuth := hasCheckedAuth s; checks := checks s |}
  else s.

(** [logout], lines 60-69, once the request is over, however it ended. *)
Definition logout (s : State) : State :=
  {| user := None; loading := loading s;
     hasCheckedAuth := hasCheckedAuth s; checks := checks s |}.

(** [refreshAuth], lines 71-74, up to the call of [getCurrentUser]. *)
Definition refreshAuth (s : State) : State :=
  {| user := user s; loading := loading s; hasCheckedAuth := false;
     checks := S (checks s) |}.

Inductive Event : Type :=
  | Navigated (pathname : option string)
  | CheckAnswered (userData : option AuthService.User)
  | LoggedOut
  | RefreshAuth.

Definition step (s : State) (e : Event) : State :=
  match e with
  | Navigated pathname => pathnameEffect pathname s
  | CheckAnswered userData => checkAuthAnswered userData s
  | LoggedOut => logout s
  | RefreshAuth => refreshAuth s
  end.

Definition run (s : State) (es : list Event) : State := foldl step s es.

Definition isRefreshAuth (e : Event) : bool :=
  match e with RefreshAuth => true | _ => false end.

End AuthProvider.

(** X20: navigation checks the session once.  Over any sequence of page
    changes, answers and logouts the provider calls [checkAuth] at most
    once, on the first page that is not an auth page; each call of
    [refreshAuth] adds its own check and allows one more on the next
    such page; and once [loading] is off it stays off. *)
Theorem auth_checked_once (es : list AuthProvider.Event) :
  (AuthProvider.checks (AuthProvider.run AuthProvider.init es) <=
   1 + 2 * length (filter (fun e => AuthProvider.isRefreshAuth e = true) es))%nat /\
  forall s e, AuthProvider.loading s = false ->
    AuthProvider.loading (AuthProvider.step s e) = false.
Proof.
  split.
  - assert (forall es s,
              (AuthProvider.checks (AuthProvider.run s es) +
               (if AuthProvider.hasCheckedAuth (AuthProvider.run s es)
                then 0 else 1) <=
               AuthProvider.checks s +
               (if AuthProvider.hasCheckedAuth s then 0 else 1) +
               2 * length (filter (fun e => AuthProvider.isRefreshAuth e = true)
                             es))%nat) as Hpot.
    { clear es. induction es as [|e es IH]; intros s; [cbn; lia |].
      cbn [AuthProvider.run foldl]. specialize (IH (AuthProvider.step s e)).
      unfold AuthProvider.run in IH.
      rewrite filter_cons.
      destruct e as [p|u| |]; cbn [AuthProvider.isRefreshAuth] in *.
      - destruct (decide (false = true)); [discriminate |].
        cbn [AuthProvider.step] in *. unfold AuthProvider.pathnameEffect in *.
        destruct (AuthProvider.hasCheckedAuth s) eqn:E,
                 (Routes.isAuthPage p) eqn:Ep; cbn in *;
          rewrite ?E in *; cbn in *; lia.
      - destruct (decide (false = true)); [discriminate |].
        cbn in *. lia.
      - destruct (decide (false = true)); [discriminate |].
        cbn in *. lia.
      - destruct (decide (true = true)); [ | contradiction].
        cbn in *. destruct (AuthProvider.hasCheckedAuth s); lia. }
    specialize (Hpot es AuthProvider.init). cbn in Hpot.
    destruct (AuthProvider.hasCheckedAuth (AuthProvider.run AuthProvider.init es));
      lia.
  - intros s e Hl. destruct e as [p|u| |]; cbn; trivial.
    unfold AuthProvider.pathnameEffect.
    destruct (negb (AuthProvider.hasCheckedAuth s) && negb (Routes.isAuthPage p));
      [exact Hl |].
    destruct (Routes.isAuthPage p); [reflexivity | exact Hl].
Qed.

Lemma auth_checked_once_witness :
  AuthProvider.loading
    (AuthProvider.step
       (AuthProvider.run AuthProvider.init
          [AuthProvider.Navigated (Some "/login"%string)])
       (AuthProvider.Navigated (Some "/"%string))) = false.
Proof.
  apply (proj2 (auth_checked_once [])). reflexivity.
Defined.

(** ** The API client: the retry after a 401 *)

Module Api.

(** The reply to one sending of a request: the data, or an error with
    the status of its response, if it has one. *)
Inductive Reply : Type :=
  | Success (data : string)
  | Failure (status : option Z).

(** How the call ends for the caller; [RedirectedToLogin] is the
    rejection with the error of the refresh, after [window.location] is
    set to the login page. *)
Inductive Outcome : Type :=
  | Resolved (data : string)
  | Rejected (status : option Z)
  | RedirectedToLogin.

(** A request through the instance with its response interceptor, api.ts
    lines 11-30.  [server n] is the reply to the sending number [n] of the
    request, [refresh n] tells whether the refresh number [n] succeeds,
    [_retry] is the flag of the configuration of the request.  The result
    carries the number of sendings and of refreshes. *)
Fixpoint request (fuel : nat) (server : nat -> Reply) (refresh : nat -> bool)
    (_retry : bool) (sends refreshes : nat) : Run (Outcome * nat * nat) :=
  match fuel with
  | O => OutOfFuel
  | S fuel' =>
      match server sends with
      | Success data => Returns (Resolved data, S sends, refreshes)
      | Failure status =>
          if bool_decide (status = Some 401) && negb _retry then
            if refresh refreshes then
              request fuel' server refresh true (S sends) (S refreshes)
            else Returns (RedirectedToLogin, S sends, S refreshes)
          else Returns (Rejected status, S sends, refreshes)
      end
  end.

End Api.

(** X21: a request is retried once at most.  Whatever the server answers,
    a call through the API client ends after at most two sendings and one
    refresh of the token; it is sent twice only after a 401 followed by a
    refresh that succeeded, and then the second reply is the result, also
    a second 401; an error other than 401 is passed on at once; and the
    browser is sent to the login page exactly when the refresh fails. *)
Theorem request_retried_once (server : nat -> Api.Reply)
    (refresh : nat -> bool) (fuel : nat) :
  exists outcome sends refreshes,
    Api.request (2 + fuel) server refresh false 0 0 =
      Returns (outcome, sends, refreshes) /\
    (sends <= 2)%nat /\ (refreshes <= 1)%nat /\
    (sends = 2%nat <->
     server 0%nat = Api.Failure (Some 401) /\ refresh 0%nat = true) /\
    (sends = 2%nat ->
     outcome = match server 1%nat with
               | Api.Success data => Api.Resolved data
               | Api.Failure status => Api.Rejected status
               end) /\
    (outcome = Api.RedirectedToLogin <->
     server 0%nat = Api.Failure (Some 401) /\ refresh 0%nat = false) /\
    (forall status, server 0%nat = Api.Failure status -> status <> Some 401 ->
       outcome = Api.Rejected status /\ sends = 1%nat /\ refreshes = 0%nat).
Proof.
  assert (forall (st : option Z), st <> Some 401 ->
            bool_decide (st = Some 401) = false) as Hother
    by (intros st Hst; apply bool_decide_eq_false; exact Hst).
  cbn [Nat.add Api.request].
  destruct (server 0%nat) as [data|status] eqn:E0.
  - exists (Api.Resolved data), 1%nat, 0%nat.
    repeat split; intros;
      repeat match goal with H : _ /\ _ |- _ => destruct H end;
      try lia; congruence.
  - destruct (decide (status = Some 401)) as [->|Hne].
    + cbn. destruct (refresh 0%nat) eqn:Er.
      * destruct (server 1%nat) as [data|status] eqn:E1.
        -- exists (Api.Resolved data), 2%nat, 1%nat.
           repeat split; intros;
             repeat match goal with H : _ /\ _ |- _ => destruct H end;
             try lia; congruence.
        -- exists (Api.Rejected status), 2%nat, 1%nat.
           rewrite andb_false_r.
           repeat split; intros;
             repeat match goal with H : _ /\ _ |- _ => destruct H end;
             try lia; congruence.
      * exists Api.RedirectedToLogin, 1%nat, 1%nat.
        repeat split; intros;
          repeat match goal with H : _ /\ _ |- _ => destruct H end;
          try lia; congruence.
    + rewrite (Hother status Hne). cbn.
      exists (Api.Rejected status), 1%nat, 0%nat.
      repeat split; intros;
        repeat match goal with H : _ /\ _ |- _ => destruct H end;
        try lia; congruence.
Qed.

(** ** The analytics page: the counters of the statuses *)

Module Analytics.

(** Lines 67 and 70-72 of the analytics page. *)
Definition totalFiles (audioFiles : list AudioFile.t) : nat :=
  length audioFiles.

Definition completedFiles (audioFiles : list AudioFile.t) : nat :=
  length (filter (fun f => AudioFile.status f = Some completed) audioFiles).

Definition processingFiles (audioFiles : list AudioFile.t) : nat :=
  length (filter (fun f => AudioFile.status f = Some processing) audioFiles).

Definition failedFiles (audioFiles : list AudioFile.t) : nat :=
  length (filter (fun f => AudioFile.status f = Some failed) audioFiles).

End Analytics.

(** X22: the three counters of the status panel leave out the files that
    are uploaded and not yet taken up, and the files without a status:
    together with these they add up to the number of files, so their sum
    is the total exactly when every file is completed, processing or
    failed. *)
Theorem analytics_counters_partition (audioFiles : list AudioFile.t) :
  (Analytics.completedFiles audioFiles + Analytics.processingFiles audioFiles +
   Analytics.failedFiles audioFiles +
   length (filter (fun f => AudioFile.status f = Some uploaded \/
                            AudioFile.status f = None) audioFiles) =
   Analytics.totalFiles audioFiles)%nat /\
  ((Analytics.completedFiles audioFiles + Analytics.processingFiles audioFiles +
    Analytics.failedFiles audioFiles = Analytics.totalFiles audioFiles)%nat <->
   Forall (fun f => AudioFile.status f = Some completed \/
                    AudioFile.status f = Some processing \/
                    AudioFile.status f = Some failed) audioFiles).
Proof.
  unfold Analytics.completedFiles, Analytics.processingFiles,
    Analytics.failedFiles, Analytics.totalFiles.
  assert ((length (filter (fun f => AudioFile.status f = Some completed) audioFiles) +
           length (filter (fun f => AudioFile.status f = Some processing) audioFiles) +
           length (filter (fun f => AudioFile.status f = Some failed) audioFiles) +
           length (filter (fun f => AudioFile.status f = Some uploaded \/
                                    AudioFile.status f = None) audioFiles) =
           length audioFiles)%nat) as Hsum.
  { induction audioFiles as [|f l IH]; [reflexivity |].
    rewrite !filter_cons.
    destruct (AudioFile.status f) as [[| | |]|] eqn:E;
      repeat match goal with
      | |- context [decide ?P] =>
          let H := fresh in
          destruct (decide P) as [H|H];
          try (exfalso; destruct H; discriminate);
          try (exfalso; apply H; auto; fail);
          try discriminate H
      end;
      cbn [length]; lia. }
  split; [exact Hsum |].
  split.
  - intros Hzero.
    assert (filter (fun f => AudioFile.status f = Some uploaded \/
                             AudioFile.status f = None) audioFiles = []) as Hnil.
    { apply length_zero_iff_nil. lia. }
    apply Forall_forall. intros f Hf.
    destruct (AudioFile.status f) as [[| | |]|] eqn:E; auto; exfalso;
      assert (f ∈ filter (fun f => AudioFile.status f = Some uploaded \/
                                   AudioFile.status f = None) audioFiles) as Hin
        by (apply list_elem_of_filter; auto);
      rewrite Hnil in Hin; inversion Hin.
  - intros Hall.
    assert (filter (fun f => AudioFile.status f = Some uploaded \/
                             AudioFile.status f = None) audioFiles = []) as Hnil.
    { clear Hsum. induction Hall as [|f l Hf _ IH]; [reflexivity |].
      rewrite filter_cons. destruct (decide _) as [[H|H]|_]; [| | exact IH];
        exfalso; destruct Hf as [Hf|[Hf|Hf]]; congruence. }
    rewrite Hnil in Hsum. cbn [length] in Hsum. lia.
Qed.
